(** * Ranked-ballot election resolvers: plurality, IRV, RCV, pairwise preference

    A shallow embedding of [plurality_v_rcv.py] and the verification of its
    specification.  Candidates are Python integers ([Z]); counts and lengths
    are natural numbers.  Python exceptions are values of an error monad. *)

From Stdlib Require Import List ZArith Arith Lia Bool Permutation FinFun.
Import ListNotations.

(** ** Python outcomes *)

(** The exceptions the resolvers can raise.  [RuntimeError] is what a
    [StopIteration] escaping from [next] inside a generator expression turns
    into. *)
Inductive exn : Type :=
| IndexError
| ValueError
| TypeError
| RuntimeError.

(** Outcome of running a piece of the program: a value, an exception, or
    [OutOfRounds] when the round budget given to a [while] loop is used up
    ([OutOfRounds] is never a Python outcome; see [irv_fuel_enough]). *)
Inductive py (A : Type) : Type :=
| Ret (a : A)
| Raise (x : exn)
| OutOfRounds.

Arguments Ret {A} a.
Arguments Raise {A} x.
Arguments OutOfRounds {A}.

Definition bind {A B : Type} (m : py A) (k : A -> py B) : py B :=
  match m with
  | Ret a => k a
  | Raise x => Raise x
  | OutOfRounds => OutOfRounds
  end.

Notation "x <- m ;; k" := (bind m (fun x => k))
  (at level 61, m at next level, right associativity).

(** A generator consumed from left to right: the first failing element
    raises. *)
Fixpoint traverse {A B : Type} (f : A -> py B) (l : list A) : py (list B) :=
  match l with
  | [] => Ret []
  | a :: l' => b <- f a ;; bs <- traverse f l' ;; Ret (b :: bs)
  end.

(** ** Ballots *)

Definition candidate := Z.
Definition vote := list candidate.
Definition election := list vote.

(** [x in candidates] *)
Definition mem (x : candidate) (l : list candidate) : bool :=
  existsb (Z.eqb x) l.

(** [seq[0]] on a list *)
Definition subscript0 {A : Type} (l : list A) : py A :=
  match l with
  | [] => Raise IndexError
  | x :: _ => Ret x
  end.

(** [max(...)] and [min(...)] of a sequence of counts; both raise
    [ValueError] on an empty one. *)
Definition pymax (l : list nat) : py nat :=
  match l with
  | [] => Raise ValueError
  | x :: r => Ret (fold_left Nat.max r x)
  end.

Definition pymin (l : list nat) : py nat :=
  match l with
  | [] => Raise ValueError
  | x :: r => Ret (fold_left Nat.min r x)
  end.

(** ** collections.Counter

    A Counter is a dict: keys are unique and kept in insertion order, which
    [items()], [values()] and [most_common] follow. *)
Module Counter.

Definition t := list (candidate * nat).

(** [c[k] += 1] *)
Fixpoint incr (k : candidate) (c : t) : t :=
  match c with
  | [] => [(k, 1)]
  | (k', n) :: r =>
      if Z.eqb k k' then (k', S n) :: r else (k', n) :: incr k r
  end.

(** [Counter(iterable)] *)
Definition of_list (xs : list candidate) : t :=
  fold_left (fun c k => incr k c) xs [].

(** [c[k]]: a missing key reads as 0 and is not inserted. *)
Fixpoint get (c : t) (k : candidate) : nat :=
  match c with
  | [] => 0
  | (k', n) :: r => if Z.eqb k k' then n else get r k
  end.

Definition items (c : t) : list (candidate * nat) := c.
Definition keys (c : t) : list candidate := map fst c.
Definition values (c : t) : list nat := map snd c.

(** [max(items, key=itemgetter(1))]: the first entry with the largest
    count. *)
Fixpoint first_max (best : candidate * nat) (l : t) : candidate * nat :=
  match l with
  | [] => best
  | kv :: r => if snd best <? snd kv then first_max kv r else first_max best r
  end.

(** [c.most_common(1)], i.e. [heapq.nlargest(1, c.items(), key=...)] *)
Definition most_common_1 (c : t) : list (candidate * nat) :=
  match c with
  | [] => []
  | kv :: r => [first_max kv r]
  end.

(** Keys are unique and every stored count is positive. *)
Definition wf (c : t) : Prop :=
  NoDup (keys c) /\ forall k n, In (k, n) c -> 1 <= n.

End Counter.

(** ** The program *)

(** [candidates_for_election]: the frozenset of all candidates, listed
    without repetition.  The order in which a frozenset is iterated is left
    open by Python; no result below depends on it
    ([irv_from_any_order], [rcv_from_any_order]). *)
Definition candidates_for_election (e : election) : list candidate :=
  nodup Z.eq_dec (concat e).

(** [plurality] *)
Definition plurality (e : election) : py (option candidate) :=
  firsts <- traverse (fun vote : vote => subscript0 vote) e ;;
  let counts := Counter.of_list firsts in
  winning_score <- pymax (Counter.values counts) ;;
  let winners :=
    map fst (filter (fun cv => snd cv =? winning_score) (Counter.items counts)) in
  if 1 <? length winners then Ret None
  else w <- subscript0 winners ;; Ret (Some w).

(** The variable [candidates] of [irv] and [rcv] first holds a frozenset and,
    from the first round on, a list.  Both have a length and can be
    iterated; only the list can be subscripted. *)
Inductive pyseq : Type :=
| FrozenSet (l : list candidate)
| PyList (l : list candidate).

Definition elems (s : pyseq) : list candidate :=
  match s with
  | FrozenSet l => l
  | PyList l => l
  end.

(** [next(v for v in vote if v in candidates)] inside the generator handed
    to [Counter] *)
Definition top_active (candidates : list candidate) (v : vote) : py candidate :=
  match find (fun x => mem x candidates) v with
  | Some x => Ret x
  | None => Raise RuntimeError
  end.

(** [Counter(next(...) for vote in election)] *)
Definition round_scores (candidates : list candidate) (e : election)
  : py Counter.t :=
  tops <- traverse (top_active candidates) e ;;
  Ret (Counter.of_list tops).

(** The last two lines of a round: the losing score and the survivors. *)
Definition survivors (scores : Counter.t) (candidates : list candidate)
  : py (list candidate) :=
  losing_score <- pymin (map (Counter.get scores) candidates) ;;
  Ret (filter (fun c => losing_score <? Counter.get scores c) candidates).

(** The [while len(candidates) > 1] loop of [irv], run for at most [fuel]
    rounds. *)
Fixpoint irv_loop (fuel : nat) (e : election) (candidates : pyseq)
  : py pyseq :=
  if length (elems candidates) <=? 1 then Ret candidates
  else
    match fuel with
    | 0 => OutOfRounds
    | S fuel' =>
        scores <- round_scores (elems candidates) e ;;
        rest <- survivors scores (elems candidates) ;;
        irv_loop fuel' e (PyList rest)
    end.

(** The code after the loop, shared by [irv] and [rcv]:
    [if not candidates: return None / else: return candidates[0]].
    A frozenset cannot be subscripted. *)
Definition after_loop (candidates : pyseq) : py (option candidate) :=
  match candidates with
  | FrozenSet [] => Ret None
  | PyList [] => Ret None
  | FrozenSet (_ :: _) => Raise TypeError
  | PyList (c :: _) => Ret (Some c)
  end.

(** [irv] with its frozenset iterated in the order [cs] and a round
    budget. *)
Definition irv_from (fuel : nat) (cs : list candidate) (e : election)
  : py (option candidate) :=
  candidates <- irv_loop fuel e (FrozenSet cs) ;;
  after_loop candidates.

Definition irv (e : election) : py (option candidate) :=
  irv_from (length (candidates_for_election e)) (candidates_for_election e) e.

(** [(num_voters // 2) + (0 if num_voters % 2 == 0 else 1)] *)
Definition fifty_percent_votes (num_voters : nat) : nat :=
  num_voters / 2 + (if num_voters mod 2 =? 0 then 0 else 1).

(** The loop of [rcv]: [inl c] when the loop is left by [return most_common],
    [inr candidates] when its condition fails. *)
Fixpoint rcv_loop (fuel : nat) (e : election) (fifty : nat)
  (candidates : pyseq) : py (candidate + pyseq) :=
  if length (elems candidates) <=? 1 then Ret (inr candidates)
  else
    match fuel with
    | 0 => OutOfRounds
    | S fuel' =>
        scores <- round_scores (elems candidates) e ;;
        top <- subscript0 (Counter.most_common_1 scores) ;;
        let (most_common, count) := top : candidate * nat in
        if fifty <=? count then Ret (inl most_common)
        else
          rest <- survivors scores (elems candidates) ;;
          rcv_loop fuel' e fifty (PyList rest)
    end.

Definition rcv_from (fuel : nat) (cs : list candidate) (e : election)
  : py (option candidate) :=
  let num_voters := length e in
  r <- rcv_loop fuel e (fifty_percent_votes num_voters) (FrozenSet cs) ;;
  match r with
  | inl most_common => Ret (Some most_common)
  | inr candidates => after_loop candidates
  end.

Definition rcv (e : election) : py (option candidate) :=
  rcv_from (length (candidates_for_election e)) (candidates_for_election e) e.

(** [operator.indexOf(vote, x)] *)
Fixpoint indexOf (v : vote) (x : candidate) : py nat :=
  match v with
  | [] => Raise ValueError
  | y :: r => if Z.eqb y x then Ret 0 else i <- indexOf r x ;; Ret (S i)
  end.

(** [majority_preferences] *)
Definition majority_preferences (e : election) (choice1 choice2 : candidate)
  : py Counter.t :=
  picks <- traverse
             (fun vote : vote =>
                i1 <- indexOf vote choice1 ;;
                i2 <- indexOf vote choice2 ;;
                Ret (if i1 <? i2 then choice1 else choice2))
             e ;;
  Ret (Counter.of_list picks).

(** ** The specification's vocabulary

    These definitions follow the words of the specification, not the code. *)
Module Spec.

(** A candidate of the election: one that appears in some vote. *)
Definition is_candidate (e : election) (c : candidate) : Prop :=
  exists v, In v e /\ In c v.

(** Invariants of the data model: at least one vote, every vote non-empty
    and free of duplicates. *)
Definition well_formed (e : election) : Prop :=
  e <> [] /\ Forall (fun v : vote => v <> [] /\ NoDup v) e.

(** Every vote ranks every candidate of the election. *)
Definition complete (e : election) : Prop :=
  forall v c, In v e -> is_candidate e c -> In c v.

(** Number of votes whose first-ranked candidate is [c]. *)
Definition first_choice_tally (e : election) (c : candidate) : nat :=
  length (filter (fun v : vote =>
                    match v with
                    | x :: _ => Z.eqb x c
                    | [] => false
                    end) e).

(** Current top active choice of a vote: the first candidate of its ranking
    that is still active. *)
Fixpoint top_choice (active : list candidate) (v : vote) : option candidate :=
  match v with
  | [] => None
  | x :: r => if in_dec Z.eq_dec x active then Some x else top_choice active r
  end.

(** The vote reaches an active candidate. *)
Definition names_active (active : list candidate) (v : vote) : Prop :=
  exists c, In c v /\ In c active.

(** Score of [c]: the number of votes whose current top active choice is
    [c]. *)
Definition score (active : list candidate) (e : election) (c : candidate)
  : nat :=
  length (filter (fun v => match top_choice active v with
                           | Some x => Z.eqb x c
                           | None => false
                           end) e).

(** The minimum score among the active candidates. *)
Definition min_score (active : list candidate) (e : election) : nat :=
  match active with
  | [] => 0
  | c :: r => fold_right (fun d m => Nat.min (score active e d) m)
                (score active e c) r
  end.

(** Step 4 of a round: remove every candidate whose score equals the
    minimum. *)
Definition eliminate (e : election) (active : list candidate)
  : list candidate :=
  filter (fun c => negb (score active e c =? min_score active e)) active.

(** The elimination engine: rounds are repeated while more than one
    candidate is active; a round is defined only when every vote reaches an
    active candidate. *)
Inductive engine (e : election) : list candidate -> list candidate -> Prop :=
| engine_stop : forall active,
    length active <= 1 -> engine e active active
| engine_round : forall active final,
    1 < length active ->
    Forall (names_active active) e ->
    engine e (eliminate e active) final ->
    engine e active final.

(** Winner determination after the loop. *)
Definition outcome (active : list candidate) : option candidate :=
  match active with
  | [c] => Some c
  | _ => None
  end.

(** Majority threshold: [ceil(num_votes / 2)]. *)
Definition majority_threshold (num_votes : nat) : nat :=
  Nat.div2 (S num_votes).

(** A candidate with the highest score of the round. *)
Definition leader (active : list candidate) (e : election) (m : candidate)
  : Prop :=
  In m active /\ forall c, In c active -> score active e c <= score active e m.

(** RCV: the engine with a majority check before each elimination. *)
Inductive rcv_engine (e : election) (threshold : nat)
  : list candidate -> option candidate -> Prop :=
| rcv_stop : forall active,
    length active <= 1 -> rcv_engine e threshold active (outcome active)
| rcv_exit : forall active m,
    1 < length active ->
    Forall (names_active active) e ->
    leader active e m ->
    threshold <= score active e m ->
    rcv_engine e threshold active (Some m)
| rcv_round : forall active m r,
    1 < length active ->
    Forall (names_active active) e ->
    leader active e m ->
    score active e m < threshold ->
    rcv_engine e threshold (eliminate e active) r ->
    rcv_engine e threshold active r.

(** Every vote eventually names an active candidate: the engine, started on
    all candidates, runs to its end. *)
Definition never_exhausted (e : election) : Prop :=
  exists final, engine e (candidates_for_election e) final.

Definition valid (e : election) : Prop :=
  well_formed e /\ never_exhausted e.

(** Which of [a] and [b] comes first in the ranking: [true] when it is
    [a]. *)
Fixpoint ranks_first (a b : candidate) (v : vote) : bool :=
  match v with
  | [] => false
  | x :: r => if Z.eqb x a then true
              else if Z.eqb x b then false
              else ranks_first a b r
  end.

(** Number of votes that rank [a] before [b]. *)
Definition prefer (e : election) (a b : candidate) : nat :=
  length (filter (ranks_first a b) e).

End Spec.

(** ** Auxiliary definitions used by the proofs *)

(** The candidate a vote counts for in a pairwise comparison. *)
Definition pick (a b : candidate) (v : vote) : candidate :=
  if Spec.ranks_first a b v then a else b.

(** The top active choice of a vote, 0 when it has none. *)
Definition top_or_zero (A : list candidate) (v : vote) : candidate :=
  match Spec.top_choice A v with
  | Some x => x
  | None => 0%Z
  end.

(** The state the loop of [irv] ends in: untouched when no round is run, a
    list afterwards. *)
Definition final_state (s : pyseq) (final : list candidate) : pyseq :=
  if length (elems s) <=? 1 then s else PyList final.

(** What [rcv] makes of the way its loop ended. *)
Definition rcv_result (r : candidate + pyseq) : option candidate :=
  match r with
  | inl m => Some m
  | inr s => Spec.outcome (elems s)
  end.

(** [rounds e A B]: the engine, started on [A], has [B] as the active set at
    the start of one of its rounds. *)
Inductive rounds (e : election) : list candidate -> list candidate -> Prop :=
| rounds_here : forall A, rounds e A A
| rounds_next : forall A B,
    1 < length A ->
    Forall (Spec.names_active A) e ->
    rounds e (Spec.eliminate e A) B ->
    rounds e A B.

(** Two states of the same kind holding the same candidates. *)
Definition same_state (s s' : pyseq) : Prop :=
  match s, s' with
  | FrozenSet l, FrozenSet l' => Permutation l l'
  | PyList l, PyList l' => Permutation l l'
  | _, _ => False
  end.

Definition same_outcome {A : Type} (R : A -> A -> Prop) (x y : py A) : Prop :=
  match x, y with
  | Ret a, Ret b => R a b
  | Raise u, Raise v => u = v
  | OutOfRounds, OutOfRounds => True
  | _, _ => False
  end.

(** Boolean checks of the data-model invariants and of complete ballots. *)
Fixpoint nodupb (v : vote) : bool :=
  match v with
  | [] => true
  | x :: r => negb (mem x r) && nodupb r
  end.

Definition well_formedb (e : election) : bool :=
  match e with
  | [] => false
  | _ => forallb (fun v : vote => match v with
                                  | [] => false
                                  | _ => nodupb v
                                  end) e
  end.

Definition completeb (e : election) : bool :=
  forallb (fun v : vote =>
             forallb (fun c => mem c v) (candidates_for_election e)) e.

(** ** The search for diverging elections *)

(** [list(range(k))] *)
Definition range (k : nat) : list candidate := map Z.of_nat (seq 0 k).

(** The values the strategy [election] can draw: for a number [k] of
    candidates between 2 and 10, a list of at least one permutation of
    [range(k)]. *)
Definition drawn (e : election) : Prop :=
  exists k, 2 <= k <= 10 /\ e <> []
            /\ Forall (fun v : vote => Permutation (range k) v) e.

(** The function [plurality_v_rcv] maps over the drawn elections. *)
Definition outcomes (e : election)
  : py (election * option candidate * option candidate) :=
  p <- plurality e ;; r <- rcv e ;; Ret (e, p, r).

(** The filter of [plurality_v_rcv]:
    [res[1] is not None and res[2] is not None and res[1] != res[2]]. *)
Definition keep (res : election * option candidate * option candidate) : bool :=
  match res with
  | (_, Some p, Some r) => negb (Z.eqb p r)
  | _ => false
  end.

(** A boolean check that an election can be drawn with [k] candidates. *)
Definition drawnb (k : nat) (e : election) : bool :=
  (2 <=? k) && (k <=? 10)
  && match e with
     | [] => false
     | _ :: _ => true
     end
  && forallb (fun v : vote =>
                (length v =? k) && nodupb v
                && forallb (fun c => mem c (range k)) v) e.

(** Nine ballots over three candidates on which the two rules disagree. *)
Definition diverging_election : election :=
  [[0; 1; 2]; [0; 1; 2]; [0; 1; 2]; [0; 1; 2];
   [1; 2; 0]; [1; 2; 0]; [1; 2; 0]; [2; 1; 0]; [2; 1; 0]]%Z.

(** ** Basic facts about the building blocks *)

Lemma mem_In (x : candidate) (l : list candidate) : mem x l = true <-> In x l.
Proof.
  unfold mem. rewrite existsb_exists. split.
  - intros (y & Hy & E). apply Z.eqb_eq in E. now subst.
  - intros H. exists x. split; [assumption | apply Z.eqb_refl].
Qed.

Lemma mem_perm (x : candidate) (l l' : list candidate) :
  Permutation l l' -> mem x l = mem x l'.
Proof.
  intros P. destruct (mem x l') eqn:E.
  - apply mem_In. apply mem_In in E. now apply Permutation_in with l'; [symmetry|].
  - destruct (mem x l) eqn:E'; [|reflexivity].
    apply mem_In in E'. apply (Permutation_in _ P) in E'.
    apply mem_In in E'. congruence.
Qed.

Lemma traverse_map {A B : Type} (f : A -> py B) (g : A -> B) (l : list A) :
  (forall a, In a l -> f a = Ret (g a)) -> traverse f l = Ret (map g l).
Proof.
  induction l as [|a l IH]; intros H; simpl; [reflexivity|].
  rewrite (H a (or_introl eq_refl)). simpl.
  rewrite IH by (intros; apply H; now right). reflexivity.
Qed.

Lemma traverse_raise {A B : Type} (f : A -> py B) (x : exn) (l : list A) :
  (forall a, In a l -> (exists b, f a = Ret b) \/ f a = Raise x) ->
  (exists a, In a l /\ f a = Raise x) ->
  traverse f l = Raise x.
Proof.
  induction l as [|a l IH]; intros Hall (a0 & Hin & Ha0); [destruct Hin|].
  simpl. destruct (Hall a (or_introl eq_refl)) as [(b & Hb) | Hr].
  - rewrite Hb. simpl. destruct Hin as [-> | Hin]; [congruence|].
    rewrite IH; [reflexivity | intros; apply Hall; now right | now exists a0].
  - now rewrite Hr.
Qed.

Lemma traverse_ret_all {A B : Type} (f : A -> py B) (l : list A) (bs : list B) :
  traverse f l = Ret bs -> forall a, In a l -> exists b, f a = Ret b.
Proof.
  revert bs. induction l as [|a l IH]; intros bs H a0 Hin; [destruct Hin|].
  simpl in H. destruct (f a) as [b| |] eqn:Fa; try discriminate. simpl in H.
  destruct (traverse f l) as [bs'| |] eqn:T; try discriminate.
  destruct Hin as [<- | Hin]; [now exists b | now apply (IH bs')].
Qed.

Lemma fold_min_spec (r : list nat) (x : nat) :
  (fold_left Nat.min r x = x \/ In (fold_left Nat.min r x) r)
  /\ fold_left Nat.min r x <= x
  /\ forall y, In y r -> fold_left Nat.min r x <= y.
Proof.
  revert x. induction r as [|a r IH]; intros x; simpl.
  - repeat split; [now left | lia | intros y []].
  - destruct (IH (Nat.min x a)) as (H1 & H2 & H3). repeat split.
    + destruct H1 as [H1 | H1]; [|now right; right].
      rewrite H1. destruct (Nat.min_spec x a) as [[_ E] | [_ E]]; rewrite E; auto.
    + lia.
    + intros y [<- | Hy]; [lia | now apply H3].
Qed.

Lemma fold_max_spec (r : list nat) (x : nat) :
  (fold_left Nat.max r x = x \/ In (fold_left Nat.max r x) r)
  /\ x <= fold_left Nat.max r x
  /\ forall y, In y r -> y <= fold_left Nat.max r x.
Proof.
  revert x. induction r as [|a r IH]; intros x; simpl.
  - repeat split; [now left | lia | intros y []].
  - destruct (IH (Nat.max x a)) as (H1 & H2 & H3). repeat split.
    + destruct H1 as [H1 | H1]; [|now right; right].
      rewrite H1. destruct (Nat.max_spec x a) as [[_ E] | [_ E]]; rewrite E; auto.
    + lia.
    + intros y [<- | Hy]; [lia | now apply H3].
Qed.

Lemma pymin_spec (l : list nat) (m : nat) :
  pymin l = Ret m -> In m l /\ forall y, In y l -> m <= y.
Proof.
  destruct l as [|x r]; simpl; [discriminate|]. intros [= <-].
  destruct (fold_min_spec r x) as (H1 & H2 & H3). split.
  - destruct H1 as [-> | H1]; [now left | now right].
  - intros y [<- | Hy]; [assumption | now apply H3].
Qed.

Lemma pymax_spec (l : list nat) (m : nat) :
  pymax l = Ret m -> In m l /\ forall y, In y l -> y <= m.
Proof.
  destruct l as [|x r]; simpl; [discriminate|]. intros [= <-].
  destruct (fold_max_spec r x) as (H1 & H2 & H3). split.
  - destruct H1 as [-> | H1]; [now left | now right].
  - intros y [<- | Hy]; [assumption | now apply H3].
Qed.

Lemma pymin_defined (l : list nat) : l <> [] -> exists m, pymin l = Ret m.
Proof. destruct l; [congruence | intros _; simpl; eauto]. Qed.

Lemma pymax_defined (l : list nat) : l <> [] -> exists m, pymax l = Ret m.
Proof. destruct l; [congruence | intros _; simpl; eauto]. Qed.

(** The least element of a list is unique, so [pymin] does not depend on the
    order of its argument. *)
Lemma pymin_perm (l l' : list nat) : Permutation l l' -> pymin l = pymin l'.
Proof.
  intros P. destruct l as [|x r].
  - apply Permutation_nil in P. now subst.
  - destruct l' as [|x' r'];
      [symmetry in P; apply Permutation_nil in P; discriminate|].
    destruct (pymin_defined (x :: r)) as (m & Hm); [discriminate|].
    destruct (pymin_defined (x' :: r')) as (m' & Hm'); [discriminate|].
    rewrite Hm, Hm'. f_equal.
    apply pymin_spec in Hm, Hm'. destruct Hm as (I & L), Hm' as (I' & L').
    apply Nat.le_antisymm.
    + apply L. apply Permutation_in with (x' :: r'); [now symmetry | exact I'].
    + apply L'. apply Permutation_in with (x :: r); [exact P | exact I].
Qed.

(** ** Counters *)

Section CounterFacts.

Import Counter.

Lemma get_incr (k x : candidate) (c : t) :
  get (incr k c) x = if Z.eqb x k then S (get c x) else get c x.
Proof.
  induction c as [|[k' n] r IH]; simpl.
  - destruct (Z.eqb x k); reflexivity.
  - destruct (Z.eqb k k') eqn:E; simpl.
    + apply Z.eqb_eq in E. subst k'. destruct (Z.eqb x k); reflexivity.
    + destruct (Z.eqb x k') eqn:E'.
      * apply Z.eqb_eq in E'. subst k'.
        rewrite Z.eqb_sym in E. now rewrite E.
      * exact IH.
Qed.

Lemma keys_incr (k : candidate) (c : t) :
  keys (incr k c) = if mem k (keys c) then keys c else keys c ++ [k].
Proof.
  unfold keys, mem. induction c as [|[k' n] r IH]; simpl; [reflexivity|].
  destruct (Z.eqb k k') eqn:E; simpl; [reflexivity|].
  rewrite IH. destruct (existsb (Z.eqb k) (map fst r)); reflexivity.
Qed.

Lemma get_fold (xs : list candidate) (acc : t) (x : candidate) :
  get (fold_left (fun c k => incr k c) xs acc) x
  = get acc x + count_occ Z.eq_dec xs x.
Proof.
  revert acc. induction xs as [|y xs IH]; intros acc; simpl; [lia|].
  rewrite IH, get_incr. destruct (Z.eq_dec y x) as [-> | N].
  - rewrite Z.eqb_refl. lia.
  - destruct (Z.eqb x y) eqn:E; [apply Z.eqb_eq in E; congruence | reflexivity].
Qed.

(** Reading a Counter built from a sequence gives the number of
    occurrences. *)
Lemma get_of_list (xs : list candidate) (x : candidate) :
  get (of_list xs) x = count_occ Z.eq_dec xs x.
Proof. unfold of_list. now rewrite get_fold. Qed.

Lemma wf_incr (k : candidate) (c : t) : wf c -> wf (incr k c).
Proof.
  intros (ND & Pos). split.
  - rewrite keys_incr. destruct (mem k (keys c)) eqn:M; [assumption|].
    apply NoDup_app; [assumption | repeat constructor; intros [] | ].
    intros a Ha [<- | []]. apply mem_In in Ha. congruence.
  - clear ND. induction c as [|[k' n'] r IH]; simpl; intros k0 n H.
    + destruct H as [[= <- <-] | []]. lia.
    + destruct (Z.eqb k k').
      * destruct H as [[= <- <-] | H];
          [specialize (Pos k' n' (or_introl eq_refl)); lia
          | apply (Pos k0 n); now right].
      * destruct H as [[= <- <-] | H];
          [apply (Pos k' n'); now left|].
        apply (IH (fun a b Hab => Pos a b (or_intror Hab)) k0 n H).
Qed.

Lemma wf_of_list (xs : list candidate) : wf (of_list xs).
Proof.
  unfold of_list.
  assert (G : forall acc, wf acc -> wf (fold_left (fun c k => incr k c) xs acc)).
  { induction xs as [|y xs IH]; intros acc W; simpl; [assumption|].
    apply IH. now apply wf_incr. }
  apply G. split; [constructor | intros k n []].
Qed.

Lemma get_In (c : t) (k : candidate) (n : nat) :
  NoDup (keys c) -> In (k, n) c -> get c k = n.
Proof.
  induction c as [|[k' n'] r IH]; simpl; intros ND H; [destruct H|].
  inversion ND as [|? ? Hn ND']; subst.
  destruct H as [[= -> ->] | H]; [now rewrite Z.eqb_refl|].
  destruct (Z.eqb k k') eqn:E; [|now apply IH].
  apply Z.eqb_eq in E. subst k'. exfalso. apply Hn.
  change k with (fst (k, n)). now apply in_map.
Qed.

Lemma In_get (c : t) (k : candidate) :
  0 < get c k -> In (k, get c k) c.
Proof.
  induction c as [|[k' n'] r IH]; simpl; intros H; [lia|].
  destruct (Z.eqb k k') eqn:E; [apply Z.eqb_eq in E; subst; now left|].
  right. now apply IH.
Qed.

(** The entries of a well-formed Counter are exactly the positive
    readings. *)
Lemma wf_In_iff (c : t) (k : candidate) (n : nat) :
  wf c -> (In (k, n) c <-> get c k = n /\ 1 <= n).
Proof.
  intros (ND & Pos). split.
  - intros H. split; [now apply get_In | now apply (Pos k)].
  - intros (<- & H). now apply In_get.
Qed.

End CounterFacts.

(** ** Plurality *)

Lemma NoDup_map_fst_filter {A B : Type} (f : A * B -> bool) (l : list (A * B)) :
  NoDup (map fst l) -> NoDup (map fst (filter f l)).
Proof.
  induction l as [|x l IH]; simpl; intros ND; [constructor|].
  inversion ND as [|? ? Hn ND']; subst. destruct (f x); simpl; [|now apply IH].
  constructor; [|now apply IH].
  intros H. apply Hn. apply in_map_iff in H. destruct H as (y & Ey & Hy).
  apply filter_In in Hy. apply in_map_iff. exists y. tauto.
Qed.

Lemma first_choices (e : election) :
  Forall (fun v : vote => v <> []) e ->
  traverse (fun vote : vote => subscript0 vote) e = Ret (map (hd 0%Z) e).
Proof.
  intros H. apply traverse_map. intros v Hv.
  rewrite Forall_forall in H. specialize (H v Hv).
  destruct v; [congruence | reflexivity].
Qed.

Lemma count_first_choices (e : election) (c : candidate) :
  Forall (fun v : vote => v <> []) e ->
  count_occ Z.eq_dec (map (hd 0%Z) e) c = Spec.first_choice_tally e c.
Proof.
  unfold Spec.first_choice_tally.
  induction 1 as [|v e Hv _ IH]; simpl; [reflexivity|].
  destruct v as [|x r]; [congruence|]. simpl.
  destruct (Z.eq_dec x c) as [-> | N].
  - rewrite Z.eqb_refl. simpl. now rewrite IH.
  - destruct (Z.eqb x c) eqn:E; [apply Z.eqb_eq in E; congruence | exact IH].
Qed.

(** The two ways [plurality] can end on an election with at least one vote
    and no empty vote. *)
Lemma plurality_cases (e : election) :
  e <> [] -> Forall (fun v : vote => v <> []) e ->
  (plurality e = Ret None /\
   exists a b, a <> b
     /\ Spec.first_choice_tally e a = Spec.first_choice_tally e b
     /\ forall c, Spec.first_choice_tally e c <= Spec.first_choice_tally e a)
  \/
  (exists w, plurality e = Ret (Some w)
     /\ 0 < Spec.first_choice_tally e w
     /\ forall c, c <> w ->
          Spec.first_choice_tally e c < Spec.first_choice_tally e w).
Proof.
  intros Hne Hv. unfold plurality. rewrite (first_choices e Hv). simpl.
  set (cnt := Counter.of_list (map (hd 0%Z) e)).
  assert (W : Counter.wf cnt) by apply wf_of_list.
  assert (G : forall c, Counter.get cnt c = Spec.first_choice_tally e c).
  { intros c. unfold cnt. rewrite get_of_list. now apply count_first_choices. }
  assert (NE : Counter.values cnt <> []).
  { destruct e as [|v e']; [congruence|]. intros E.
    assert (P : 0 < Counter.get cnt (hd 0%Z v)).
    { unfold cnt. rewrite get_of_list. simpl.
      destruct (Z.eq_dec (hd 0%Z v) (hd 0%Z v)); [lia | congruence]. }
    apply In_get in P. apply (in_map snd) in P.
    unfold Counter.values in E. rewrite E in P. destruct P. }
  destruct (pymax_defined _ NE) as (M & HM). rewrite HM. simpl.
  apply pymax_spec in HM. destruct HM as (HMin & HMax).
  assert (Le : forall c, Counter.get cnt c <= M).
  { intros c. destruct (Nat.eq_dec (Counter.get cnt c) 0) as [-> | P]; [lia|].
    apply HMax. unfold Counter.values.
    change (Counter.get cnt c) with (snd (c, Counter.get cnt c)).
    apply in_map. apply In_get. lia. }
  assert (Mpos : 1 <= M).
  { unfold Counter.values in HMin. apply in_map_iff in HMin.
    destruct HMin as ([k n] & <- & Hk). simpl. now apply (proj2 W k). }
  set (winners :=
         map fst (filter (fun cv : candidate * nat => snd cv =? M)
                    (Counter.items cnt))).
  assert (Win : forall k, In k winners <-> Counter.get cnt k = M).
  { intros k. unfold winners, Counter.items. rewrite in_map_iff. split.
    - intros ([k' n] & Ek & Hk). simpl in Ek. subst k'.
      apply filter_In in Hk. destruct Hk as (Hk & En). simpl in En.
      apply Nat.eqb_eq in En. subst n. now apply get_In; [apply W|].
    - intros Ek. exists (k, M). split; [reflexivity|].
      apply filter_In. split; [|simpl; apply Nat.eqb_refl].
      rewrite <- Ek. apply In_get. lia. }
  assert (ND : NoDup winners).
  { unfold winners. apply NoDup_map_fst_filter. apply W. }
  destruct winners as [|w [|w' rest]] eqn:Ew.
  - exfalso. unfold Counter.values in HMin. apply in_map_iff in HMin.
    destruct HMin as ([k n] & En & Hk). simpl in En. subst n.
    apply (Win k). now apply get_In; [apply W|].
  - right. exists w. simpl. split; [reflexivity|].
    assert (Ew' : Counter.get cnt w = M) by (apply Win; now left).
    split; [rewrite <- G; lia|].
    intros c Hc. rewrite <- !G. rewrite Ew'.
    specialize (Le c). destruct (Nat.eq_dec (Counter.get cnt c) M) as [E|]; [|lia].
    apply Win in E. destruct E as [E | []]. congruence.
  - left. simpl. split; [reflexivity|]. exists w, w'.
    assert (E1 : Counter.get cnt w = M) by (apply Win; now left).
    assert (E2 : Counter.get cnt w' = M) by (apply Win; right; now left).
    repeat split.
    + intros ->. inversion ND as [|? ? Hn _]. apply Hn. now left.
    + rewrite <- !G. congruence.
    + intros c. rewrite <- !G, E1. apply Le.
Qed.

(** ** The majority threshold *)

Lemma fifty_percent_votes_eq (n : nat) :
  fifty_percent_votes n = Spec.majority_threshold n.
Proof.
  unfold fifty_percent_votes, Spec.majority_threshold.
  rewrite Nat.div2_div.
  pose proof (Nat.div_mod_eq n 2) as D.
  pose proof (Nat.mod_upper_bound n 2 ltac:(lia)) as U.
  destruct (n mod 2 =? 0) eqn:E.
  - apply Nat.eqb_eq in E.
    apply Nat.div_unique with 1; lia.
  - apply Nat.eqb_neq in E.
    apply Nat.div_unique with 0; lia.
Qed.

(** ** Pairwise preference *)

Lemma indexOf_missing (v : vote) (x : candidate) :
  ~ In x v -> indexOf v x = Raise ValueError.
Proof.
  induction v as [|y r IH]; simpl; intros H; [reflexivity|].
  destruct (Z.eqb y x) eqn:E; [apply Z.eqb_eq in E; tauto|].
  rewrite IH by tauto. reflexivity.
Qed.

Lemma indexOf_present (v : vote) (x : candidate) :
  In x v -> exists i, indexOf v x = Ret i.
Proof.
  induction v as [|y r IH]; simpl; intros H; [destruct H|].
  destruct (Z.eqb y x) eqn:E; [now exists 0|].
  destruct H as [-> | H]; [rewrite Z.eqb_refl in E; discriminate|].
  destruct (IH H) as (i & ->). now exists (S i).
Qed.

(** Comparing positions decides which candidate comes first. *)
Lemma indexOf_compare (a b : candidate) (v : vote) :
  a <> b -> In a v -> In b v ->
  exists i1 i2, indexOf v a = Ret i1 /\ indexOf v b = Ret i2
                /\ (i1 <? i2) = Spec.ranks_first a b v.
Proof.
  intros Hab. induction v as [|x r IH]; intros Ha Hb; [destruct Ha|]. simpl.
  destruct (Z.eqb x a) eqn:Ea.
  - apply Z.eqb_eq in Ea. subst x.
    destruct (Z.eqb a b) eqn:Eb; [apply Z.eqb_eq in Eb; congruence|].
    destruct Hb as [Hb | Hb]; [congruence|].
    destruct (indexOf_present _ _ Hb) as (i & ->). simpl. now exists 0, (S i).
  - destruct Ha as [Ha | Ha]; [subst; rewrite Z.eqb_refl in Ea; discriminate|].
    destruct (Z.eqb x b) eqn:Eb.
    + destruct (indexOf_present _ _ Ha) as (i & ->). simpl. now exists (S i), 0.
    + destruct Hb as [Hb | Hb]; [subst; rewrite Z.eqb_refl in Eb; discriminate|].
      destruct (IH Ha Hb) as (i1 & i2 & -> & -> & E). simpl.
      now exists (S i1), (S i2).
Qed.

Lemma ranks_first_swap (a b : candidate) (v : vote) :
  a <> b -> In a v -> In b v ->
  Spec.ranks_first b a v = negb (Spec.ranks_first a b v).
Proof.
  intros Hab. induction v as [|x r IH]; intros Ha Hb; [destruct Ha|]. simpl.
  destruct (Z.eqb x a) eqn:Ea, (Z.eqb x b) eqn:Eb; try reflexivity.
  - apply Z.eqb_eq in Ea, Eb. congruence.
  - apply IH.
    + destruct Ha as [Ha|Ha]; [subst; rewrite Z.eqb_refl in Ea; discriminate|assumption].
    + destruct Hb as [Hb|Hb]; [subst; rewrite Z.eqb_refl in Eb; discriminate|assumption].
Qed.

Lemma majority_preferences_picks (e : election) (a b : candidate) :
  a <> b -> Forall (fun v : vote => In a v /\ In b v) e ->
  majority_preferences e a b = Ret (Counter.of_list (map (pick a b) e)).
Proof.
  intros Hab H. unfold majority_preferences.
  rewrite traverse_map with (g := pick a b); [reflexivity|].
  intros v Hv. rewrite Forall_forall in H. destruct (H v Hv) as (Ha & Hb).
  destruct (indexOf_compare a b v Hab Ha Hb) as (i1 & i2 & -> & -> & E).
  simpl. unfold pick. now rewrite E.
Qed.

Lemma count_picks (e : election) (a b : candidate) :
  a <> b ->
  count_occ Z.eq_dec (map (pick a b) e) a = length (filter (Spec.ranks_first a b) e)
  /\ count_occ Z.eq_dec (map (pick a b) e) a
     + count_occ Z.eq_dec (map (pick a b) e) b = length e.
Proof.
  intros Hab. induction e as [|v e (IH1 & IH2)]; [split; reflexivity|].
  cbn [map count_occ filter].
  destruct (Spec.ranks_first a b v) eqn:R.
  - assert (P : pick a b v = a) by (unfold pick; now rewrite R). rewrite P.
    destruct (Z.eq_dec a a) as [_|]; [|congruence].
    destruct (Z.eq_dec a b) as [|_]; [congruence|]. simpl. split; lia.
  - assert (P : pick a b v = b) by (unfold pick; now rewrite R). rewrite P.
    destruct (Z.eq_dec b a) as [|_]; [congruence|].
    destruct (Z.eq_dec b b) as [_|]; [|congruence]. simpl. split; lia.
Qed.

Lemma prefer_swap (e : election) (a b : candidate) :
  a <> b -> Forall (fun v : vote => In a v /\ In b v) e ->
  Spec.prefer e a b + Spec.prefer e b a = length e.
Proof.
  intros Hab. unfold Spec.prefer. induction 1 as [|v e (Ha & Hb) _ IH]; simpl;
    [reflexivity|].
  rewrite (ranks_first_swap a b v Hab Ha Hb).
  destruct (Spec.ranks_first a b v); simpl; lia.
Qed.

Lemma of_list_all_same (a : candidate) (n k : nat) :
  fold_left (fun c x => Counter.incr x c) (repeat a n) [(a, S k)]
  = [(a, S k + n)].
Proof.
  revert k. induction n as [|n IH]; intros k; simpl.
  - now rewrite Nat.add_0_r.
  - rewrite Z.eqb_refl. rewrite IH. do 2 f_equal. lia.
Qed.

(** ** One round of elimination *)

Lemma top_active_choice (A : list candidate) (v : vote) :
  top_active A v = match Spec.top_choice A v with
                   | Some x => Ret x
                   | None => Raise RuntimeError
                   end.
Proof.
  unfold top_active. induction v as [|x r IH]; simpl; [reflexivity|].
  destruct (in_dec Z.eq_dec x A) as [I | N].
  - apply mem_In in I. now rewrite I.
  - destruct (mem x A) eqn:M; [apply mem_In in M; tauto | exact IH].
Qed.

Lemma top_choice_sound (A : list candidate) (v : vote) (x : candidate) :
  Spec.top_choice A v = Some x -> In x A /\ In x v.
Proof.
  induction v as [|y r IH]; simpl; [discriminate|].
  destruct (in_dec Z.eq_dec y A) as [I | N].
  - intros [= <-]. auto.
  - intros H. destruct (IH H). auto.
Qed.

Lemma top_choice_defined (A : list candidate) (v : vote) :
  Spec.names_active A v -> exists x, Spec.top_choice A v = Some x.
Proof.
  intros (c & Hv & HA). induction v as [|y r IH]; [destruct Hv|]. simpl.
  destruct (in_dec Z.eq_dec y A) as [I | N]; [eauto|].
  destruct Hv as [-> | Hv]; [tauto | now apply IH].
Qed.

Lemma top_choice_undefined (A : list candidate) (v : vote) :
  Spec.top_choice A v = None -> ~ Spec.names_active A v.
Proof.
  intros H N. destruct (top_choice_defined A v N) as (x & Hx). congruence.
Qed.

Lemma count_occ_map {A : Type} (g : A -> candidate) (l : list A) (c : candidate) :
  count_occ Z.eq_dec (map g l) c = length (filter (fun a => Z.eqb (g a) c) l).
Proof.
  induction l as [|a l IH]; [reflexivity|]. cbn [map filter].
  destruct (Z.eq_dec (g a) c) as [E | N].
  - rewrite (count_occ_cons_eq Z.eq_dec _ E).
    apply Z.eqb_eq in E. rewrite E. simpl. now rewrite IH.
  - rewrite (count_occ_cons_neq Z.eq_dec _ N).
    apply Z.eqb_neq in N. now rewrite N.
Qed.

Lemma count_tops (A : list candidate) (e : election) (c : candidate) :
  Forall (Spec.names_active A) e ->
  count_occ Z.eq_dec (map (top_or_zero A) e) c = Spec.score A e c.
Proof.
  intros H. rewrite count_occ_map. unfold Spec.score. f_equal.
  apply filter_ext_in. intros v Hv. rewrite Forall_forall in H.
  unfold top_or_zero. now destruct (top_choice_defined A v (H v Hv)) as (x & ->).
Qed.

(** The tally of a round, as the code builds it, reads as the
    specification's score. *)
Lemma round_scores_spec (A : list candidate) (e : election) :
  Forall (Spec.names_active A) e ->
  exists sc, round_scores A e = Ret sc
    /\ (forall c, Counter.get sc c = Spec.score A e c)
    /\ Counter.wf sc
    /\ (forall k, In k (Counter.keys sc) -> In k A)
    /\ (e <> [] -> sc <> []).
Proof.
  intros H. exists (Counter.of_list (map (top_or_zero A) e)).
  assert (G : forall c, Counter.get (Counter.of_list (map (top_or_zero A) e)) c
                        = Spec.score A e c).
  { intros c. rewrite get_of_list. now apply count_tops. }
  repeat split.
  - unfold round_scores. rewrite traverse_map with (g := top_or_zero A);
      [reflexivity|].
    intros v Hv. rewrite top_active_choice. unfold top_or_zero.
    rewrite Forall_forall in H.
    now destruct (top_choice_defined A v (H v Hv)) as (x & ->).
  - exact G.
  - apply wf_of_list.
  - apply wf_of_list.
  - intros k Hk. unfold Counter.keys in Hk. apply in_map_iff in Hk.
    destruct Hk as ([k' n] & Ek & Hk). simpl in Ek. subst k'.
    apply (wf_In_iff _ k n (wf_of_list _)) in Hk. destruct Hk as (Hg & Hn).
    rewrite get_of_list in Hg.
    assert (I : In k (map (top_or_zero A) e)).
    { apply (count_occ_In Z.eq_dec). lia. }
    apply in_map_iff in I. destruct I as (v & Ev & Hv).
    rewrite Forall_forall in H. unfold top_or_zero in Ev.
    destruct (top_choice_defined A v (H v Hv)) as (x & Hx). rewrite Hx in Ev.
    subst x. now apply top_choice_sound in Hx.
  - intros Hne E. destruct e as [|v e']; [congruence|].
    specialize (G (top_or_zero A v)). rewrite E in G. simpl in G.
    inversion H as [|? ? Hv He]; subst.
    unfold Spec.score in G. simpl in G. unfold top_or_zero in G at 1.
    destruct (top_choice_defined A v Hv) as (x & Hx). rewrite Hx in G.
    unfold top_or_zero in G. rewrite Hx in G. rewrite Z.eqb_refl in G.
    simpl in G. discriminate.
Qed.

(** When some vote names no active candidate the tally raises. *)
Lemma round_scores_exhausted (A : list candidate) (e : election) :
  Exists (fun v => ~ Spec.names_active A v) e ->
  round_scores A e = Raise RuntimeError.
Proof.
  intros H. unfold round_scores.
  rewrite traverse_raise with (x := RuntimeError); [reflexivity | | ].
  - intros v _. rewrite top_active_choice.
    destruct (Spec.top_choice A v); eauto.
  - apply Exists_exists in H. destruct H as (v & Hv & N). exists v.
    split; [assumption|]. rewrite top_active_choice.
    destruct (Spec.top_choice A v) as [x|] eqn:T; [|reflexivity].
    exfalso. apply N. exists x. apply top_choice_sound in T. tauto.
Qed.

Lemma round_scores_no_timeout (A : list candidate) (e : election) :
  round_scores A e <> OutOfRounds.
Proof.
  unfold round_scores.
  assert (T : traverse (top_active A) e <> OutOfRounds).
  { induction e as [|v e IH]; simpl; [discriminate|].
    rewrite top_active_choice. destruct (Spec.top_choice A v); simpl;
      [|discriminate].
    destruct (traverse (top_active A) e); simpl; congruence. }
  destruct (traverse (top_active A) e); simpl; congruence.
Qed.

Lemma min_score_spec (A : list candidate) (e : election) :
  A <> [] ->
  (exists c, In c A /\ Spec.score A e c = Spec.min_score A e)
  /\ forall c, In c A -> Spec.min_score A e <= Spec.score A e c.
Proof.
  unfold Spec.min_score. generalize (Spec.score A e) as f. intros f.
  destruct A as [|c r]; [congruence|]. intros _.
  induction r as [|d r (IH1 & IH2)]; simpl.
  - split; [exists c; auto | intros x [<- | []]; lia].
  - split.
    + destruct (Nat.min_spec (f d)
                  (fold_right (fun d0 m => Nat.min (f d0) m) (f c) r))
        as [[_ E] | [_ E]]; rewrite E.
      * exists d. auto.
      * destruct IH1 as (x & Hx & Ex). exists x. split; [|exact Ex].
        destruct Hx; [now left | now right; right].
    + intros x [<- | [<- | Hx]].
      * specialize (IH2 c (or_introl eq_refl)). lia.
      * lia.
      * specialize (IH2 x (or_intror Hx)). lia.
Qed.

Lemma filter_drops {A : Type} (f : A -> bool) (l : list A) (x : A) :
  In x l -> f x = false -> length (filter f l) < length l.
Proof.
  induction l as [|a l IH]; intros Hin Hf; [destruct Hin|]. simpl.
  pose proof (filter_length_le f l) as L.
  destruct Hin as [-> | Hin].
  - rewrite Hf. lia.
  - specialize (IH Hin Hf). destruct (f a); simpl; lia.
Qed.

(** Every round removes at least one candidate: the losing score is the
    score of some active candidate, which does not survive. *)
Lemma survivors_shrink (sc : Counter.t) (A : list candidate) :
  A <> [] ->
  exists rest, survivors sc A = Ret rest /\ length rest < length A.
Proof.
  intros HA. unfold survivors.
  destruct (pymin_defined (map (Counter.get sc) A)) as (m & Hm).
  { destruct A; [congruence | discriminate]. }
  rewrite Hm. simpl. eexists. split; [reflexivity|].
  apply pymin_spec in Hm. destruct Hm as (Hin & _).
  apply in_map_iff in Hin. destruct Hin as (c & Ec & Hc).
  apply filter_drops with c; [assumption|]. rewrite Ec. apply Nat.ltb_irrefl.
Qed.

(** The survivors the code keeps are the candidates the specification does
    not eliminate. *)
Lemma survivors_spec (sc : Counter.t) (A : list candidate) (e : election) :
  A <> [] -> (forall c, Counter.get sc c = Spec.score A e c) ->
  survivors sc A = Ret (Spec.eliminate e A).
Proof.
  intros HA G. unfold survivors.
  destruct (pymin_defined (map (Counter.get sc) A)) as (m & Hm).
  { destruct A; [congruence | discriminate]. }
  rewrite Hm. simpl. f_equal. apply pymin_spec in Hm. destruct Hm as (Hin & Hle).
  destruct (min_score_spec A e HA) as ((c0 & Hc0 & E0) & Hmin).
  assert (Em : m = Spec.min_score A e).
  { apply in_map_iff in Hin. destruct Hin as (c & Ec & Hc). rewrite G in Ec.
    apply Nat.le_antisymm.
    - rewrite <- E0, <- G. apply Hle. now apply in_map.
    - rewrite <- Ec. now apply Hmin. }
  unfold Spec.eliminate. apply filter_ext_in. intros c Hc. rewrite G, Em.
  specialize (Hmin c Hc).
  destruct (Nat.ltb_spec (Spec.min_score A e) (Spec.score A e c)),
    (Nat.eqb_spec (Spec.score A e c) (Spec.min_score A e)); simpl; lia.
Qed.

Lemma eliminate_shrinks (e : election) (A : list candidate) :
  A <> [] -> length (Spec.eliminate e A) < length A.
Proof.
  intros HA. destruct (min_score_spec A e HA) as ((c & Hc & E) & _).
  unfold Spec.eliminate. apply filter_drops with c; [assumption|].
  rewrite E, Nat.eqb_refl. reflexivity.
Qed.

Lemma eliminate_incl (e : election) (A : list candidate) (c : candidate) :
  In c (Spec.eliminate e A) -> In c A.
Proof. unfold Spec.eliminate. intros H. now apply filter_In in H. Qed.

(** ** The loops *)

Lemma irv_loop_done (fuel : nat) (e : election) (s : pyseq) :
  length (elems s) <= 1 -> irv_loop fuel e s = Ret s.
Proof.
  intros H. apply Nat.leb_le in H. destruct fuel; simpl; now rewrite H.
Qed.

Lemma irv_loop_round (fuel : nat) (e : election) (s : pyseq) :
  1 < length (elems s) ->
  irv_loop (S fuel) e s =
    (scores <- round_scores (elems s) e ;;
     rest <- survivors scores (elems s) ;;
     irv_loop fuel e (PyList rest)).
Proof.
  intros H. apply Nat.leb_gt in H. simpl. now rewrite H.
Qed.

Lemma rcv_loop_done (fuel : nat) (e : election) (fifty : nat) (s : pyseq) :
  length (elems s) <= 1 -> rcv_loop fuel e fifty s = Ret (inr s).
Proof.
  intros H. apply Nat.leb_le in H. destruct fuel; simpl; now rewrite H.
Qed.

Lemma rcv_loop_round (fuel : nat) (e : election) (fifty : nat) (s : pyseq) :
  1 < length (elems s) ->
  rcv_loop (S fuel) e fifty s =
    (scores <- round_scores (elems s) e ;;
     top <- subscript0 (Counter.most_common_1 scores) ;;
     let (most_common, count) := top : candidate * nat in
     if fifty <=? count then Ret (inl most_common)
     else
       rest <- survivors scores (elems s) ;;
       rcv_loop fuel e fifty (PyList rest)).
Proof.
  intros H. apply Nat.leb_gt in H. simpl. now rewrite H.
Qed.

Lemma nonempty_of_length (A : list candidate) : 1 < length A -> A <> [].
Proof. destruct A; simpl; [lia | discriminate]. Qed.

(** A budget of as many rounds as there are active candidates is never
    used up by the loop of [irv]. *)
Lemma irv_loop_no_timeout (fuel : nat) (e : election) (s : pyseq) :
  length (elems s) <= fuel -> irv_loop fuel e s <> OutOfRounds.
Proof.
  revert s. induction fuel as [|fuel IH]; intros s H.
  - rewrite irv_loop_done by lia. discriminate.
  - destruct (Nat.le_gt_cases (length (elems s)) 1) as [L | L].
    + rewrite irv_loop_done by assumption. discriminate.
    + rewrite irv_loop_round by assumption.
      pose proof (round_scores_no_timeout (elems s) e) as T.
      destruct (round_scores (elems s) e) as [sc| |]; simpl; try congruence.
      destruct (survivors_shrink sc _ (nonempty_of_length _ L)) as (rest & -> & Hr).
      simpl. apply IH. simpl. lia.
Qed.

Lemma rcv_loop_no_timeout (fuel : nat) (e : election) (fifty : nat) (s : pyseq) :
  length (elems s) <= fuel -> rcv_loop fuel e fifty s <> OutOfRounds.
Proof.
  revert s. induction fuel as [|fuel IH]; intros s H.
  - rewrite rcv_loop_done by lia. discriminate.
  - destruct (Nat.le_gt_cases (length (elems s)) 1) as [L | L].
    + rewrite rcv_loop_done by assumption. discriminate.
    + rewrite rcv_loop_round by assumption.
      pose proof (round_scores_no_timeout (elems s) e) as T.
      destruct (round_scores (elems s) e) as [sc| |]; simpl; try congruence.
      destruct (subscript0 (Counter.most_common_1 sc)) as [[mc n]| |] eqn:M;
        simpl; try discriminate.
      * destruct (fifty <=? n); [discriminate|].
        destruct (survivors_shrink sc _ (nonempty_of_length _ L)) as (rest & -> & Hr).
        simpl. apply IH. simpl. lia.
      * destruct (Counter.most_common_1 sc); discriminate.
Qed.

(** More budget does not change a run that did not use its budget up. *)
Lemma irv_loop_more_fuel (fuel fuel' : nat) (e : election) (s : pyseq) :
  fuel <= fuel' -> irv_loop fuel e s <> OutOfRounds ->
  irv_loop fuel' e s = irv_loop fuel e s.
Proof.
  revert fuel' s. induction fuel as [|fuel IH]; intros fuel' s Hle H.
  - destruct (Nat.le_gt_cases (length (elems s)) 1) as [L | L].
    + now rewrite !irv_loop_done.
    + exfalso. apply H. apply Nat.leb_gt in L. simpl. now rewrite L.
  - destruct fuel' as [|fuel']; [lia|].
    destruct (Nat.le_gt_cases (length (elems s)) 1) as [L | L].
    + now rewrite !irv_loop_done.
    + rewrite irv_loop_round in H by assumption.
      rewrite !irv_loop_round by assumption.
      destruct (round_scores (elems s) e) as [sc| |]; simpl in *; try reflexivity.
      destruct (survivors sc (elems s)) as [rest| |]; simpl in *; try reflexivity.
      apply IH; [lia | assumption].
Qed.

Lemma rcv_loop_more_fuel (fuel fuel' : nat) (e : election) (fifty : nat)
  (s : pyseq) :
  fuel <= fuel' -> rcv_loop fuel e fifty s <> OutOfRounds ->
  rcv_loop fuel' e fifty s = rcv_loop fuel e fifty s.
Proof.
  revert fuel' s. induction fuel as [|fuel IH]; intros fuel' s Hle H.
  - destruct (Nat.le_gt_cases (length (elems s)) 1) as [L | L].
    + now rewrite !rcv_loop_done.
    + exfalso. apply H. apply Nat.leb_gt in L. simpl. now rewrite L.
  - destruct fuel' as [|fuel']; [lia|].
    destruct (Nat.le_gt_cases (length (elems s)) 1) as [L | L].
    + now rewrite !rcv_loop_done.
    + rewrite rcv_loop_round in H by assumption.
      rewrite !rcv_loop_round by assumption.
      destruct (round_scores (elems s) e) as [sc| |]; simpl in *; try reflexivity.
      destruct (subscript0 (Counter.most_common_1 sc)) as [[mc n]| |];
        simpl in *; try reflexivity.
      destruct (fifty <=? n); [reflexivity|].
      destruct (survivors sc (elems s)) as [rest| |]; simpl in *; try reflexivity.
      apply IH; [lia | assumption].
Qed.

(** The budget [irv] and [rcv] are given is enough: any larger one gives the
    same result. *)
Lemma irv_fuel_enough (fuel : nat) (cs : list candidate) (e : election) :
  length cs <= fuel -> irv_from fuel cs e = irv_from (length cs) cs e.
Proof.
  intros H. unfold irv_from. rewrite (irv_loop_more_fuel (length cs) fuel);
    [reflexivity | assumption | now apply irv_loop_no_timeout].
Qed.

Lemma rcv_fuel_enough (fuel : nat) (cs : list candidate) (e : election) :
  length cs <= fuel -> rcv_from fuel cs e = rcv_from (length cs) cs e.
Proof.
  intros H. unfold rcv_from. cbv zeta.
  rewrite (rcv_loop_more_fuel (length cs) fuel);
    [reflexivity | assumption | now apply rcv_loop_no_timeout].
Qed.

(** The loop of [irv] follows the elimination engine. *)
Lemma irv_loop_engine (e : election) (A final : list candidate) :
  Spec.engine e A final ->
  forall fuel s, elems s = A -> length A <= fuel ->
  irv_loop fuel e s = Ret (final_state s final).
Proof.
  induction 1 as [A L | A final L Hn Hrest IH]; intros fuel s Es Hf;
    unfold final_state; rewrite Es.
  - apply Nat.leb_le in L as L'. rewrite L'. apply irv_loop_done. now rewrite Es.
  - apply Nat.leb_gt in L as L'. rewrite L'.
    destruct fuel as [|fuel]; [lia|].
    rewrite irv_loop_round by now rewrite Es. rewrite Es.
    destruct (round_scores_spec A e Hn) as (sc & -> & G & _). simpl.
    rewrite (survivors_spec sc A e (nonempty_of_length _ L) G). simpl.
    pose proof (eliminate_shrinks e A (nonempty_of_length _ L)) as Sh.
    rewrite (IH fuel (PyList (Spec.eliminate e A)) eq_refl) by lia.
    unfold final_state. simpl.
    destruct (length (Spec.eliminate e A) <=? 1) eqn:E; [|reflexivity].
    apply Nat.leb_le in E. inversion Hrest; subst; [reflexivity | lia].
Qed.

Lemma engine_final_small (e : election) (A final : list candidate) :
  Spec.engine e A final -> length final <= 1.
Proof. induction 1; assumption. Qed.

Lemma engine_final_incl (e : election) (A final : list candidate) :
  Spec.engine e A final -> forall c, In c final -> In c A.
Proof.
  induction 1 as [|A final _ _ _ IH]; intros c Hc; [assumption|].
  apply eliminate_incl with e. now apply IH.
Qed.

Lemma after_loop_list (l : list candidate) :
  length l <= 1 -> after_loop (PyList l) = Ret (Spec.outcome l).
Proof.
  destruct l as [|c [|d r]]; simpl; intros H; try reflexivity. lia.
Qed.

(** With at least two candidates [irv] returns the engine's outcome. *)
Lemma irv_from_engine (e : election) (cs final : list candidate) (fuel : nat) :
  1 < length cs -> length cs <= fuel -> Spec.engine e cs final ->
  irv_from fuel cs e = Ret (Spec.outcome final).
Proof.
  intros L Hf En. unfold irv_from.
  rewrite (irv_loop_engine e cs final En fuel (FrozenSet cs) eq_refl Hf).
  unfold final_state. simpl. apply Nat.leb_gt in L. rewrite L. simpl.
  apply after_loop_list. now apply engine_final_small with e cs.
Qed.

(** With exactly one candidate the loop is skipped and the frozenset is
    subscripted. *)
Lemma irv_from_single (e : election) (c : candidate) (fuel : nat) :
  irv_from fuel [c] e = Raise TypeError.
Proof. unfold irv_from. rewrite irv_loop_done by (simpl; lia). reflexivity. Qed.

Lemma rcv_from_single (e : election) (c : candidate) (fuel : nat) :
  rcv_from fuel [c] e = Raise TypeError.
Proof.
  unfold rcv_from. cbv zeta. rewrite rcv_loop_done by (simpl; lia). reflexivity.
Qed.

(** ** The majority check of [rcv] *)

Lemma first_max_spec (l : Counter.t) (best : candidate * nat) :
  In (Counter.first_max best l) (best :: l)
  /\ forall kv, In kv (best :: l) -> snd kv <= snd (Counter.first_max best l).
Proof.
  revert best. induction l as [|kv l IH]; intros best; simpl.
  - split; [now left | intros ? [<- | []]; lia].
  - destruct (Nat.ltb_spec (snd best) (snd kv)) as [Lt | Ge].
    + destruct (IH kv) as (I & M). split.
      * right. exact I.
      * intros x [<- | Hx]; [|now apply M].
        specialize (M kv (or_introl eq_refl)). lia.
    + destruct (IH best) as (I & M). split.
      * destruct I as [I | I]; [now left | now right; right].
      * intros x [<- | [<- | Hx]].
        -- apply M. now left.
        -- specialize (M best (or_introl eq_refl)). lia.
        -- apply M. now right.
Qed.

Lemma most_common_spec (sc : Counter.t) :
  sc <> [] ->
  exists m n, Counter.most_common_1 sc = [(m, n)]
    /\ In (m, n) sc /\ forall k v, In (k, v) sc -> v <= n.
Proof.
  destruct sc as [|kv r]; [congruence|]. intros _. simpl.
  destruct (first_max_spec r kv) as (I & M).
  destruct (Counter.first_max kv r) as [m n] eqn:E.
  exists m, n. repeat split; [exact I|].
  intros k v H. apply (M (k, v) H).
Qed.

(** The entry [most_common(1)] reports is a leader of the round, with its
    score. *)
Lemma most_common_leader (A : list candidate) (e : election) (sc : Counter.t)
  (m : candidate) (n : nat) :
  (forall c, Counter.get sc c = Spec.score A e c) ->
  Counter.wf sc ->
  (forall k, In k (Counter.keys sc) -> In k A) ->
  In (m, n) sc -> (forall k v, In (k, v) sc -> v <= n) ->
  Spec.leader A e m /\ n = Spec.score A e m.
Proof.
  intros G W K I M.
  assert (En : n = Spec.score A e m).
  { rewrite <- G. symmetry. apply get_In; [apply W | exact I]. }
  split; [|exact En]. split.
  - apply K. unfold Counter.keys. change m with (fst (m, n)). now apply in_map.
  - intros c _. rewrite <- En, <- G.
    destruct (Nat.eq_dec (Counter.get sc c) 0) as [-> | P]; [lia|].
    apply (M c). apply In_get. lia.
Qed.

(** The loop of [rcv] follows the engine with the majority check; when it
    is not left early it ends in the state the loop of [irv] ends in. *)
Lemma rcv_loop_engine (e : election) (thr : nat) (A final : list candidate) :
  e <> [] -> Spec.engine e A final ->
  forall fuel s, elems s = A -> length A <= fuel ->
  exists r, rcv_loop fuel e thr s = Ret r
    /\ Spec.rcv_engine e thr A (rcv_result r)
    /\ (forall s', r = inr s' -> s' = final_state s final).
Proof.
  intros Hne. induction 1 as [A L | A final L Hn Hrest IH]; intros fuel s Es Hf.
  - exists (inr s). rewrite rcv_loop_done by now rewrite Es. simpl. rewrite Es.
    repeat split; [now apply Spec.rcv_stop|].
    intros s' [= <-]. unfold final_state. rewrite Es.
    apply Nat.leb_le in L. now rewrite L.
  - destruct fuel as [|fuel]; [lia|].
    rewrite rcv_loop_round by now rewrite Es. rewrite Es.
    destruct (round_scores_spec A e Hn) as (sc & -> & G & W & K & NE). simpl.
    destruct (most_common_spec sc (NE Hne)) as (m & n & -> & I & M). simpl.
    destruct (most_common_leader A e sc m n G W K I M) as (Ld & En).
    destruct (Nat.leb_spec thr n) as [Ge | Lt].
    + exists (inl m). repeat split; [|discriminate].
      simpl. apply Spec.rcv_exit; try assumption. now rewrite <- En.
    + rewrite (survivors_spec sc A e (nonempty_of_length _ L) G). simpl.
      pose proof (eliminate_shrinks e A (nonempty_of_length _ L)) as Sh.
      destruct (IH fuel (PyList (Spec.eliminate e A)) eq_refl ltac:(lia))
        as (r & -> & Hr & Hs).
      exists r. repeat split.
      * apply Spec.rcv_round with m; try assumption. now rewrite <- En.
      * intros s' ->. rewrite (Hs s' eq_refl). unfold final_state. simpl.
        rewrite Es. apply Nat.leb_gt in L as L'. rewrite L'.
        destruct (length (Spec.eliminate e A) <=? 1) eqn:E; [|reflexivity].
        apply Nat.leb_le in E. inversion Hrest; subst; [reflexivity | lia].
Qed.

Lemma rcv_from_engine (e : election) (cs final : list candidate) (fuel : nat) :
  e <> [] -> 1 < length cs -> length cs <= fuel -> Spec.engine e cs final ->
  exists r, rcv_from fuel cs e = Ret r
    /\ Spec.rcv_engine e (Spec.majority_threshold (length e)) cs r.
Proof.
  intros Hne L Hf En. unfold rcv_from. cbv zeta.
  destruct (rcv_loop_engine e (fifty_percent_votes (length e)) cs final Hne En
              fuel (FrozenSet cs) eq_refl Hf) as (r & -> & Hr & Hs).
  rewrite fifty_percent_votes_eq in Hr. simpl.
  destruct r as [m | s']; [now exists (Some m)|].
  rewrite (Hs s' eq_refl) in *. unfold final_state in *. simpl in *.
  apply Nat.leb_gt in L. rewrite L in *. simpl in Hr.
  rewrite after_loop_list by now apply engine_final_small with e cs.
  eauto.
Qed.

(** ** After the early exit *)

Lemma rounds_trans (e : election) (A B C : list candidate) :
  rounds e A B -> rounds e B C -> rounds e A C.
Proof.
  induction 1 as [|A B L Hn _ IH]; intros H; [assumption|].
  apply rounds_next; auto.
Qed.

Lemma filter_length_mono {A : Type} (f g : A -> bool) (l : list A) :
  (forall x, In x l -> f x = true -> g x = true) ->
  length (filter f l) <= length (filter g l).
Proof.
  induction l as [|x l IH]; intros H; simpl; [lia|].
  assert (IH' : length (filter f l) <= length (filter g l)).
  { apply IH. intros y Hy. apply H. now right. }
  destruct (f x) eqn:Fx.
  - rewrite (H x (or_introl eq_refl) Fx). simpl. lia.
  - destruct (g x); simpl; lia.
Qed.

(** A vote counts for one candidate only. *)
Lemma score_disjoint (A : list candidate) (e : election) (a b : candidate) :
  a <> b -> Spec.score A e a + Spec.score A e b <= length e.
Proof.
  intros Hab. unfold Spec.score. induction e as [|v e IH]; simpl; [lia|].
  destruct (Spec.top_choice A v) as [x|]; [|lia].
  destruct (Z.eqb_spec x a), (Z.eqb_spec x b); simpl; subst;
    try congruence; lia.
Qed.

(** A surviving candidate keeps the votes it had. *)
Lemma score_mono (A A' : list candidate) (e : election) (m : candidate) :
  incl A' A -> In m A' -> Spec.score A e m <= Spec.score A' e m.
Proof.
  intros Hi Hm. unfold Spec.score. apply filter_length_mono. intros v _.
  assert (T : forall x, Spec.top_choice A v = Some x -> x = m ->
                        Spec.top_choice A' v = Some m).
  { induction v as [|y r IH]; simpl; [discriminate|]. intros x.
    destruct (in_dec Z.eq_dec y A) as [I | N].
    - intros [= ->] ->. destruct (in_dec Z.eq_dec m A'); [reflexivity | tauto].
    - destruct (in_dec Z.eq_dec y A') as [I' | _]; [elim N; now apply Hi|].
      apply IH. }
  destruct (Spec.top_choice A v) as [x|] eqn:E; [|discriminate].
  intros Ex. apply Z.eqb_eq in Ex. rewrite (T x eq_refl Ex). apply Z.eqb_refl.
Qed.

Lemma fifty_percent_is_half (n : nat) : n <= 2 * fifty_percent_votes n.
Proof.
  unfold fifty_percent_votes.
  pose proof (Nat.div_mod_eq n 2) as D.
  pose proof (Nat.mod_upper_bound n 2 ltac:(lia)) as U.
  destruct (Nat.eqb_spec (n mod 2) 0); lia.
Qed.

(** A candidate holding half of the votes is never eliminated while another
    candidate survives: the engine ends on that candidate alone, or its last
    round removes all the remaining candidates at once. *)
Lemma half_holder_survives (e : election) (m : candidate)
  (B final : list candidate) :
  Spec.engine e B final ->
  In m B -> length e <= 2 * Spec.score B e m ->
  final = [m]
  \/ (final = [] /\ exists C, rounds e B C /\ 1 < length C
                              /\ Spec.eliminate e C = []).
Proof.
  induction 1 as [B L | B final L Hn Hrest IH]; intros Hm Hh.
  - left. destruct B as [|c [|d r]]; simpl in *; [tauto | | lia].
    destruct Hm as [-> | []]. reflexivity.
  - destruct (in_dec Z.eq_dec m (Spec.eliminate e B)) as [I | N].
    + destruct IH as [-> | (-> & C & R & LC & EC)]; [assumption | | now left |].
      * pose proof (score_mono B (Spec.eliminate e B) e m
                      (eliminate_incl e B) I). lia.
      * right. split; [reflexivity|]. exists C. repeat split; try assumption.
        now apply rounds_next.
    + right.
      destruct (min_score_spec B e (nonempty_of_length _ L)) as (_ & Hmin).
      assert (Em : Spec.score B e m = Spec.min_score B e).
      { destruct (Nat.eq_dec (Spec.score B e m) (Spec.min_score B e)) as [E|D];
          [exact E|]. exfalso. apply N. unfold Spec.eliminate.
        apply filter_In. split; [assumption|].
        apply Nat.eqb_neq in D. now rewrite D. }
      assert (All : Spec.eliminate e B = []).
      { unfold Spec.eliminate.
        destruct (filter (fun c => negb (Spec.score B e c =? Spec.min_score B e)) B)
          as [|c r] eqn:F; [reflexivity|]. exfalso.
        assert (Hc : In c (c :: r)) by now left. rewrite <- F in Hc.
        apply filter_In in Hc. destruct Hc as (Hc & Ne).
        apply negb_true_iff, Nat.eqb_neq in Ne.
        specialize (Hmin c Hc).
        assert (c <> m) by (intros ->; congruence).
        pose proof (score_disjoint B e c m ltac:(assumption)). lia. }
      rewrite All in Hrest. split.
      * inversion Hrest; subst; [reflexivity | simpl in *; lia].
      * exists B. repeat split; [apply rounds_here | assumption | assumption].
Qed.

(** Where the loop of [rcv] is left early. *)
Lemma rcv_exit_point (e : election) (thr : nat) (m : candidate)
  (A final : list candidate) :
  e <> [] -> Spec.engine e A final ->
  forall fuel s, elems s = A -> rcv_loop fuel e thr s = Ret (inl m) ->
  exists B, rounds e A B /\ 1 < length B /\ Spec.leader B e m
            /\ thr <= Spec.score B e m /\ Spec.engine e B final.
Proof.
  intros Hne. induction 1 as [A L | A final L Hn Hrest IH]; intros fuel s Es H.
  - rewrite rcv_loop_done in H by now rewrite Es. discriminate.
  - destruct fuel as [|fuel].
    { simpl in H. rewrite Es in H. apply Nat.leb_gt in L. rewrite L in H.
      discriminate. }
    rewrite rcv_loop_round in H by now rewrite Es. rewrite Es in H.
    destruct (round_scores_spec A e Hn) as (sc & E & G & W & K & NE).
    rewrite E in H. simpl in H.
    destruct (most_common_spec sc (NE Hne)) as (m' & n & E' & I & M).
    rewrite E' in H. simpl in H.
    destruct (most_common_leader A e sc m' n G W K I M) as (Ld & En).
    destruct (Nat.leb_spec thr n) as [Ge | Lt].
    + injection H as <-. exists A. repeat split; try apply Ld; try assumption.
      * apply rounds_here.
      * now rewrite <- En.
      * now apply Spec.engine_round.
    + rewrite (survivors_spec sc A e (nonempty_of_length _ L) G) in H.
      simpl in H.
      destruct (IH fuel (PyList (Spec.eliminate e A)) eq_refl H)
        as (B & R & LB & Ld' & Th & En').
      exists B. repeat split; try apply Ld'; try assumption.
      now apply rounds_next.
Qed.

(** ** Candidates and valid elections *)

Lemma candidates_iff (e : election) (c : candidate) :
  In c (candidates_for_election e) <-> Spec.is_candidate e c.
Proof.
  unfold candidates_for_election, Spec.is_candidate.
  rewrite nodup_In, in_concat. reflexivity.
Qed.

Lemma candidates_NoDup (e : election) : NoDup (candidates_for_election e).
Proof. apply NoDup_nodup. Qed.

Lemma well_formed_has_candidate (e : election) :
  Spec.well_formed e -> 1 <= length (candidates_for_election e).
Proof.
  intros (Hne & Hv). destruct e as [|v e']; [congruence|].
  inversion Hv as [|? ? (Hv1 & _) _]; subst.
  destruct v as [|c r]; [congruence|].
  assert (G : forall (l : list candidate) x, In x l -> 1 <= length l).
  { intros [|d l] x H; [destruct H | simpl; lia]. }
  apply (G _ c). apply candidates_iff. exists (c :: r). split; now left.
Qed.

(** On any set of candidates of an election with complete ballots the engine
    runs to its end. *)
Lemma complete_engine (e : election) :
  Spec.complete e ->
  forall n A, length A <= n -> incl A (candidates_for_election e) ->
  exists final, Spec.engine e A final.
Proof.
  intros Hc. induction n as [|n IH]; intros A Hl Hi.
  - exists A. apply Spec.engine_stop. lia.
  - destruct (Nat.le_gt_cases (length A) 1) as [L | L].
    + exists A. now apply Spec.engine_stop.
    + pose proof (eliminate_shrinks e A (nonempty_of_length _ L)) as Sh.
      destruct (IH (Spec.eliminate e A)) as (final & En); [lia | |].
      * intros c Hc'. apply Hi. now apply eliminate_incl with e.
      * exists final. apply Spec.engine_round; [assumption | | assumption].
        apply Forall_forall. intros v Hv.
        destruct A as [|c r]; [simpl in L; lia|]. exists c.
        split; [|now left]. apply Hc; [assumption|].
        apply candidates_iff. apply Hi. now left.
Qed.

(** Elections with complete ballots, such as those the search draws, are
    valid. *)
Lemma complete_valid (e : election) :
  Spec.well_formed e -> Spec.complete e -> Spec.valid e.
Proof.
  intros W C. split; [assumption|].
  apply (complete_engine e C (length (candidates_for_election e)));
    [lia | apply incl_refl].
Qed.

Lemma engine_deterministic (e : election) (A f1 f2 : list candidate) :
  Spec.engine e A f1 -> Spec.engine e A f2 -> f1 = f2.
Proof.
  induction 1 as [A L | A f1 L Hn Hrest IH]; intros H2.
  - inversion H2; subst; [reflexivity | lia].
  - inversion H2; subst; [lia | now apply IH].
Qed.

(** ** The order in which the frozenset is iterated *)

Lemma Permutation_filter {A : Type} (f : A -> bool) (l l' : list A) :
  Permutation l l' -> Permutation (filter f l) (filter f l').
Proof.
  induction 1 as [|x l l' _ IH|x y l|l l' l'' _ IH1 _ IH2]; simpl.
  - constructor.
  - destruct (f x); [now constructor | assumption].
  - destruct (f x), (f y); try reflexivity. apply perm_swap.
  - now transitivity (filter f l').
Qed.

Lemma traverse_ext {A B : Type} (f g : A -> py B) (l : list A) :
  (forall a, f a = g a) -> traverse f l = traverse g l.
Proof.
  intros H. induction l as [|a l IH]; simpl; [reflexivity|].
  now rewrite H, IH.
Qed.

Lemma round_scores_perm (A A' : list candidate) (e : election) :
  Permutation A A' -> round_scores A e = round_scores A' e.
Proof.
  intros P. unfold round_scores. f_equal. apply traverse_ext. intros v.
  unfold top_active.
  assert (F : find (fun x => mem x A) v = find (fun x => mem x A') v).
  { induction v as [|x r IH]; simpl; [reflexivity|].
    rewrite (mem_perm x A A' P). now rewrite IH. }
  now rewrite F.
Qed.

Lemma same_state_elems (s s' : pyseq) :
  same_state s s' -> Permutation (elems s) (elems s').
Proof. destruct s, s'; simpl; tauto. Qed.

Lemma survivors_perm (sc : Counter.t) (A A' : list candidate) :
  Permutation A A' ->
  same_outcome (@Permutation candidate) (survivors sc A) (survivors sc A').
Proof.
  intros P. unfold survivors.
  rewrite (pymin_perm _ _ (Permutation_map (Counter.get sc) P)).
  destruct (pymin (map (Counter.get sc) A')) as [m| |]; simpl; auto.
  now apply Permutation_filter.
Qed.

Lemma irv_loop_perm (fuel : nat) (e : election) (s s' : pyseq) :
  same_state s s' ->
  same_outcome same_state (irv_loop fuel e s) (irv_loop fuel e s').
Proof.
  revert s s'. induction fuel as [|fuel IH]; intros s s' S;
    pose proof (same_state_elems s s' S) as P;
    pose proof (Permutation_length P) as El; simpl; rewrite <- El;
    destruct (length (elems s) <=? 1); simpl; auto.
  rewrite <- (round_scores_perm _ _ e P).
  destruct (round_scores (elems s) e) as [sc| |]; simpl; auto.
  pose proof (survivors_perm sc _ _ P) as Sv.
  destruct (survivors sc (elems s)) as [r| |],
      (survivors sc (elems s')) as [r'| |]; simpl in *; try tauto.
  now apply IH.
Qed.

Lemma rcv_loop_perm (fuel : nat) (e : election) (fifty : nat) (s s' : pyseq) :
  same_state s s' ->
  same_outcome (fun r r' => match r, r' with
                            | inl m, inl m' => m = m'
                            | inr t, inr t' => same_state t t'
                            | _, _ => False
                            end)
    (rcv_loop fuel e fifty s) (rcv_loop fuel e fifty s').
Proof.
  revert s s'. induction fuel as [|fuel IH]; intros s s' S;
    pose proof (same_state_elems s s' S) as P;
    pose proof (Permutation_length P) as El; simpl; rewrite <- El;
    destruct (length (elems s) <=? 1); simpl; auto.
  rewrite <- (round_scores_perm _ _ e P).
  destruct (round_scores (elems s) e) as [sc| |]; simpl; auto.
  destruct (subscript0 (Counter.most_common_1 sc)) as [[mc n]| |]; simpl; auto.
  destruct (fifty <=? n); simpl; auto.
  pose proof (survivors_perm sc _ _ P) as Sv.
  destruct (survivors sc (elems s)) as [r| |],
      (survivors sc (elems s')) as [r'| |]; simpl in *; try tauto.
  now apply IH.
Qed.

Lemma irv_loop_ret_small (fuel : nat) (e : election) (s t : pyseq) :
  irv_loop fuel e s = Ret t -> length (elems t) <= 1.
Proof.
  revert s. induction fuel as [|fuel IH]; intros s; simpl;
    destruct (Nat.leb_spec (length (elems s)) 1) as [L | L];
    try (intros [= <-]; assumption); try discriminate.
  destruct (round_scores (elems s) e) as [sc| |]; simpl; try discriminate.
  destruct (survivors sc (elems s)) as [r| |]; simpl; try discriminate.
  apply IH.
Qed.

Lemma rcv_loop_ret_small (fuel : nat) (e : election) (fifty : nat) (s t : pyseq) :
  rcv_loop fuel e fifty s = Ret (inr t) -> length (elems t) <= 1.
Proof.
  revert s. induction fuel as [|fuel IH]; intros s; simpl;
    destruct (Nat.leb_spec (length (elems s)) 1) as [L | L];
    try (intros [= <-]; assumption); try discriminate.
  destruct (round_scores (elems s) e) as [sc| |]; simpl; try discriminate.
  destruct (subscript0 (Counter.most_common_1 sc)) as [[mc n]| |]; simpl;
    try discriminate.
  destruct (fifty <=? n); [discriminate|].
  destruct (survivors sc (elems s)) as [r| |]; simpl; try discriminate.
  apply IH.
Qed.

Lemma after_loop_same (t t' : pyseq) :
  same_state t t' -> length (elems t) <= 1 -> after_loop t = after_loop t'.
Proof.
  destruct t as [l | l], t' as [l' | l']; simpl; try tauto; intros P L;
    destruct l as [|c [|d r]]; simpl in L; try lia.
  - apply Permutation_nil in P. now subst.
  - apply Permutation_length_1_inv in P. now subst.
  - apply Permutation_nil in P. now subst.
  - apply Permutation_length_1_inv in P. now subst.
Qed.

(** [irv] and [rcv] return the same whatever order the frozenset of
    candidates is iterated in. *)
Lemma irv_from_any_order (fuel : nat) (cs cs' : list candidate) (e : election) :
  Permutation cs cs' -> irv_from fuel cs e = irv_from fuel cs' e.
Proof.
  intros P. unfold irv_from.
  pose proof (irv_loop_perm fuel e (FrozenSet cs) (FrozenSet cs') P) as H.
  destruct (irv_loop fuel e (FrozenSet cs)) as [t| |] eqn:E,
      (irv_loop fuel e (FrozenSet cs')) as [t'| |]; simpl in *;
    try tauto; try congruence.
  apply after_loop_same; [assumption | now apply irv_loop_ret_small in E].
Qed.

Lemma rcv_from_any_order (fuel : nat) (cs cs' : list candidate) (e : election) :
  Permutation cs cs' -> rcv_from fuel cs e = rcv_from fuel cs' e.
Proof.
  intros P. unfold rcv_from. cbv zeta.
  pose proof (rcv_loop_perm fuel e (fifty_percent_votes (length e))
                (FrozenSet cs) (FrozenSet cs') P) as H.
  destruct (rcv_loop fuel e _ (FrozenSet cs)) as [[m | t]| |] eqn:E,
      (rcv_loop fuel e _ (FrozenSet cs')) as [[m' | t']| |]; simpl in *;
    try tauto; try congruence.
  apply after_loop_same; [assumption | now apply rcv_loop_ret_small in E].
Qed.

(** ** Checking validity of a given election *)

Lemma nodupb_sound (v : vote) : nodupb v = true -> NoDup v.
Proof.
  induction v as [|x r IH]; simpl; intros H; [constructor|].
  apply andb_true_iff in H. destruct H as (H1 & H2).
  constructor; [|now apply IH].
  intros I. apply mem_In in I. rewrite I in H1. discriminate.
Qed.

Lemma well_formedb_sound (e : election) :
  well_formedb e = true -> Spec.well_formed e.
Proof.
  unfold well_formedb, Spec.well_formed. destruct e as [|v e']; [discriminate|].
  intros H. split; [discriminate|].
  apply Forall_forall. intros w Hw. rewrite forallb_forall in H.
  specialize (H w Hw). destruct w; [discriminate|].
  split; [discriminate | now apply nodupb_sound].
Qed.

Lemma completeb_sound (e : election) : completeb e = true -> Spec.complete e.
Proof.
  unfold completeb, Spec.complete. intros H v c Hv Hc.
  rewrite forallb_forall in H. specialize (H v Hv).
  rewrite forallb_forall in H. apply mem_In. apply H. now apply candidates_iff.
Qed.

Lemma checked_valid (e : election) :
  well_formedb e && completeb e = true -> Spec.valid e.
Proof.
  intros H. apply andb_true_iff in H. destruct H as (H1 & H2).
  apply complete_valid; [now apply well_formedb_sound | now apply completeb_sound].
Qed.

(** ** What the resolvers return *)

(** With at least two candidates, [irv] on a valid election returns the
    outcome of the elimination engine. *)
Lemma irv_follows_engine (e : election) :
  Spec.valid e -> 1 < length (candidates_for_election e) ->
  exists final, Spec.engine e (candidates_for_election e) final
                /\ irv e = Ret (Spec.outcome final).
Proof.
  intros (_ & final & En) L. exists final. split; [assumption|].
  unfold irv. now apply irv_from_engine.
Qed.

(** With at least two candidates, [rcv] on a valid election returns an
    outcome of the engine with the majority check. *)
Lemma rcv_follows_engine (e : election) :
  Spec.valid e -> 1 < length (candidates_for_election e) ->
  exists r, rcv e = Ret r
    /\ Spec.rcv_engine e (Spec.majority_threshold (length e))
         (candidates_for_election e) r.
Proof.
  intros ((Hne & _) & final & En) L. unfold rcv.
  now apply rcv_from_engine with final.
Qed.

(** An election whose votes all name the same single candidate makes [irv]
    and [rcv] subscript the frozenset. *)
Lemma single_candidate_raises (e : election) (c : candidate) :
  candidates_for_election e = [c] ->
  irv e = Raise TypeError /\ rcv e = Raise TypeError.
Proof.
  intros E. unfold irv, rcv. rewrite E. split.
  - apply irv_from_single.
  - apply rcv_from_single.
Qed.

Lemma outcome_In (l : list candidate) (c : candidate) :
  Spec.outcome l = Some c -> In c l.
Proof.
  destruct l as [|x [|y r]]; simpl; try discriminate. intros [= ->]. now left.
Qed.

Lemma rcv_engine_In (e : election) (thr : nat) (A : list candidate)
  (r : option candidate) :
  Spec.rcv_engine e thr A r -> forall c, r = Some c -> In c A.
Proof.
  induction 1 as [A L | A m L Hn (Hm & _) Th | A m r L Hn Ld Th Hr IH];
    intros c E.
  - now apply outcome_In.
  - now injection E as <-.
  - apply eliminate_incl with e. now apply IH.
Qed.

Lemma first_choice_is_candidate (e : election) (c : candidate) :
  0 < Spec.first_choice_tally e c -> Spec.is_candidate e c.
Proof.
  unfold Spec.first_choice_tally. intros H.
  destruct (filter (fun v : vote => match v with
                                    | x :: _ => Z.eqb x c
                                    | [] => false
                                    end) e) as [|v r] eqn:F; [simpl in H; lia|].
  assert (I : In v (v :: r)) by now left. rewrite <- F in I.
  apply filter_In in I. destruct I as (Hv & Ev). exists v. split; [assumption|].
  destruct v as [|x t]; [discriminate|]. apply Z.eqb_eq in Ev. subst. now left.
Qed.

(** Winners are candidates of the election: always for [plurality], and for
    [irv] and [rcv] when the election has at least two candidates. *)
Lemma winners_are_candidates (e : election) :
  Spec.valid e ->
  (plurality e = Ret None
   \/ exists c, plurality e = Ret (Some c) /\ Spec.is_candidate e c)
  /\ (1 < length (candidates_for_election e) ->
      (irv e = Ret None
       \/ exists c, irv e = Ret (Some c) /\ Spec.is_candidate e c)
      /\ (rcv e = Ret None
          \/ exists c, rcv e = Ret (Some c) /\ Spec.is_candidate e c)).
Proof.
  intros V. split.
  - destruct V as ((Hne & Hv) & _).
    assert (Hv' : Forall (fun v : vote => v <> []) e).
    { apply Forall_forall. intros v I. rewrite Forall_forall in Hv.
      now destruct (Hv v I). }
    destruct (plurality_cases e Hne Hv') as [(-> & _) | (w & -> & P & _)];
      [now left|].
    right. exists w. split; [reflexivity | now apply first_choice_is_candidate].
  - intros L. split.
    + destruct (irv_follows_engine e V L) as (final & En & ->).
      destruct (Spec.outcome final) as [c|] eqn:O; [|now left].
      right. exists c. split; [reflexivity|]. apply candidates_iff.
      apply (engine_final_incl e _ final En). now apply outcome_In.
    + destruct (rcv_follows_engine e V L) as ([c|] & -> & Hr); [|now left].
      right. exists c. split; [reflexivity|]. apply candidates_iff.
      now apply (rcv_engine_In e _ _ _ Hr).
Qed.

(** ** The specification's sample elections *)

(** A single voter ranking three candidates: all three resolvers elect the
    first choice, and the majority threshold is 1. *)
Example single_voter :
  plurality [[7; 8; 9]]%Z = Ret (Some 7%Z)
  /\ irv [[7; 8; 9]]%Z = Ret (Some 7%Z)
  /\ rcv [[7; 8; 9]]%Z = Ret (Some 7%Z)
  /\ fifty_percent_votes (length [[7; 8; 9]]%Z) = 1.
Proof. repeat split; reflexivity. Qed.

(** Three voters, three different first choices: a tie for plurality; the
    first round of [irv] removes all three candidates at once. *)
Example three_way_tie :
  plurality [[0; 1; 2]; [1; 0; 2]; [2; 1; 0]]%Z = Ret None
  /\ Spec.eliminate [[0; 1; 2]; [1; 0; 2]; [2; 1; 0]]%Z [0; 1; 2]%Z = []
  /\ irv [[0; 1; 2]; [1; 0; 2]; [2; 1; 0]]%Z = Ret None.
Proof. repeat split; reflexivity. Qed.

(** A candidate short of the majority on first choices reaches it after one
    elimination round, and [rcv] returns it while two candidates are still
    active. *)
Example majority_after_one_round :
  round_scores [0; 1; 2]%Z [[0; 1; 2]; [0; 1; 2]; [1; 0; 2]; [2; 1; 0]; [2; 1; 0]]%Z
  = Ret [(0%Z, 2); (1%Z, 1); (2%Z, 2)]
  /\ round_scores [0; 2]%Z [[0; 1; 2]; [0; 1; 2]; [1; 0; 2]; [2; 1; 0]; [2; 1; 0]]%Z
    = Ret [(0%Z, 3); (2%Z, 2)]
  /\ rcv_loop 3 [[0; 1; 2]; [0; 1; 2]; [1; 0; 2]; [2; 1; 0]; [2; 1; 0]]%Z 3
       (FrozenSet [0; 1; 2]%Z) = Ret (inl 0%Z)
  /\ rcv [[0; 1; 2]; [0; 1; 2]; [1; 0; 2]; [2; 1; 0]; [2; 1; 0]]%Z
    = Ret (Some 0%Z).
Proof. repeat split; reflexivity. Qed.

(** Two voters with opposite rankings: [rcv] reports the first leader, who
    holds exactly half of the votes, while [irv] eliminates both candidates
    in the same round. *)
Example exact_half :
  rcv [[0; 1]; [1; 0]]%Z = Ret (Some 0%Z)
  /\ irv [[0; 1]; [1; 0]]%Z = Ret None.
Proof. split; reflexivity. Qed.

(** A ballot that stops naming active candidates makes the tally raise. *)
Example exhausted_ballot :
  irv [[0]; [0]; [1]; [1]; [2]]%Z = Raise RuntimeError.
Proof. reflexivity. Qed.

(** Pairwise preference inside a larger election. *)
Example pairwise_in_larger_election :
  majority_preferences [[0; 1; 2; 3]; [3; 2; 1; 0]; [1; 3; 0; 2]]%Z 0%Z 3%Z
  = Ret [(0%Z, 1); (3%Z, 2)].
Proof. reflexivity. Qed.

(** ** Main results *)

(** C1.  The specification states that on every valid election [irv] runs
    elimination rounds (tally of top active choices, minimum tally, removal
    of every candidate at the minimum, repeated while more than one
    candidate is active) and then returns None when no candidate is left and
    the sole remaining candidate otherwise.  The election [[0]] is valid and
    the engine ends on the sole candidate 0 without running a round, yet
    [irv] raises a TypeError instead of returning 0: no round has turned the
    frozenset of candidates into a list, and the frozenset is subscripted.
    With two or more candidates [irv] does what the specification says
    ([irv_follows_engine]). *)
Theorem irv_single_candidate_election :
  Spec.valid [[0%Z]]
  /\ Spec.engine [[0%Z]] (candidates_for_election [[0%Z]]) [0%Z]
  /\ Spec.outcome [0%Z] = Some 0%Z
  /\ irv [[0%Z]] = Raise TypeError.
Proof.
  repeat split.
  - discriminate.
  - repeat constructor; try discriminate. intros [].
  - exists [0%Z]. apply Spec.engine_stop. simpl. lia.
  - apply Spec.engine_stop. simpl. lia.
Qed.

(** C2.  The specification states that on every valid election [rcv] runs
    the rounds of the engine with a majority check before each elimination,
    and that when no candidate ever meets the threshold it returns the
    engine's final outcome.  On the valid election [[0]] no round is run,
    the specified outcome is the sole candidate 0, and [rcv] raises a
    TypeError (the same subscripted frozenset as in [irv]).  With two or
    more candidates [rcv] does what the specification says
    ([rcv_follows_engine]). *)
Theorem rcv_single_candidate_election :
  Spec.valid [[0%Z]]
  /\ Spec.rcv_engine [[0%Z]] (Spec.majority_threshold 1)
       (candidates_for_election [[0%Z]]) (Some 0%Z)
  /\ rcv [[0%Z]] = Raise TypeError.
Proof.
  repeat split.
  - discriminate.
  - repeat constructor; try discriminate. intros [].
  - exists [0%Z]. apply Spec.engine_stop. simpl. lia.
  - apply (Spec.rcv_stop [[0%Z]] (Spec.majority_threshold 1) [0%Z]). simpl. lia.
Qed.

(** C3.  On an election with at least one vote and no empty vote,
    [plurality] returns a result; it returns a candidate exactly when that
    candidate's first-choice tally is strictly higher than every other
    candidate's, and it returns None exactly when two distinct candidates
    share the highest tally. *)
Theorem plurality_strict_winner_or_tie (e : election) :
  e <> [] -> Forall (fun v : vote => v <> []) e ->
  (exists r, plurality e = Ret r)
  /\ (forall w, plurality e = Ret (Some w) <->
        forall c, c <> w ->
          Spec.first_choice_tally e c < Spec.first_choice_tally e w)
  /\ (plurality e = Ret None <->
        exists a b, a <> b
          /\ Spec.first_choice_tally e a = Spec.first_choice_tally e b
          /\ forall c, Spec.first_choice_tally e c <= Spec.first_choice_tally e a).
Proof.
  intros Hne Hv.
  destruct (plurality_cases e Hne Hv)
    as [(E & a & b & Hab & Eab & Max) | (w & E & P & Strict)].
  - split; [eauto|]. split.
    + intros w. split; [congruence|]. intros S. exfalso.
      destruct (Z.eq_dec a w) as [-> | Na].
      * specialize (S b (not_eq_sym Hab)). lia.
      * specialize (S a Na). specialize (Max w). lia.
    + split; [|intros _; exact E]. intros _. exists a, b. auto.
  - split; [eauto|]. split.
    + intros w'. split.
      * rewrite E. intros [= <-]. exact Strict.
      * intros S. destruct (Z.eq_dec w' w) as [-> | N]; [exact E|].
        specialize (S w (not_eq_sym N)). specialize (Strict w' N). lia.
    + split; [congruence|]. intros (a & b & Hab & Eab & Max). exfalso.
      destruct (Z.eq_dec a w) as [-> | Na].
      * specialize (Strict b (not_eq_sym Hab)). lia.
      * specialize (Strict a Na). specialize (Max w). lia.
Qed.

Lemma plurality_strict_winner_or_tie_witness :
  plurality [[0; 1; 2]; [1; 0; 2]; [0; 2; 1]]%Z = Ret (Some 0%Z)
  /\ plurality [[0; 1; 2]; [1; 0; 2]; [2; 1; 0]]%Z = Ret None.
Proof.
  split.
  - apply (plurality_strict_winner_or_tie [[0; 1; 2]; [1; 0; 2]; [0; 2; 1]]%Z);
      [discriminate | repeat constructor; discriminate |].
    intros c Hc. unfold Spec.first_choice_tally. cbn -[Z.eqb].
    destruct (Z.eqb_spec 0 c); [congruence|].
    destruct (Z.eqb_spec 1 c); simpl; lia.
  - apply (plurality_strict_winner_or_tie [[0; 1; 2]; [1; 0; 2]; [2; 1; 0]]%Z);
      [discriminate | repeat constructor; discriminate |].
    exists 0%Z, 1%Z. repeat split; [discriminate|].
    intros c. unfold Spec.first_choice_tally. cbn -[Z.eqb].
    destruct (Z.eqb_spec 0 c), (Z.eqb_spec 1 c), (Z.eqb_spec 2 c); simpl; lia.
Defined.

(** C4, as stated, fails: with two votes the threshold is 1, which equals
    the ceiling of 2/2 but is not more than half of the two votes. *)
Lemma threshold_of_two_votes_is_half :
  ~ (fifty_percent_votes (length [[0; 1]; [1; 0]]%Z)
     = Spec.majority_threshold (length [[0; 1]; [1; 0]]%Z)
     /\ length [[0; 1]; [1; 0]]%Z
        < 2 * fifty_percent_votes (length [[0; 1]; [1; 0]]%Z)).
Proof. intros (_ & H). vm_compute in H. lia. Qed.

(** C4, amended.  The threshold [rcv] compares scores against is
    [ceil(num_votes / 2)], the least number whose double reaches the number
    of votes; it is at least half of the votes, and more than half exactly
    when the number of votes is odd. *)
Theorem fifty_percent_votes_is_ceiling (n : nat) :
  fifty_percent_votes n = Spec.majority_threshold n
  /\ n <= 2 * fifty_percent_votes n
  /\ (forall k, n <= 2 * k -> fifty_percent_votes n <= k)
  /\ (n < 2 * fifty_percent_votes n <-> Nat.odd n = true).
Proof.
  split; [apply fifty_percent_votes_eq|].
  split; [apply fifty_percent_is_half|].
  unfold fifty_percent_votes.
  pose proof (Nat.div_mod_eq n 2) as D.
  pose proof (Nat.mod_upper_bound n 2 ltac:(lia)) as U.
  assert (O : Nat.odd n = true <-> n mod 2 = 1).
  { rewrite Nat.odd_spec. split.
    - intros (k & Hk). lia.
    - intros E. exists (n / 2). lia. }
  split.
  - intros k Hk. destruct (Nat.eqb_spec (n mod 2) 0); lia.
  - rewrite O. destruct (Nat.eqb_spec (n mod 2) 0); lia.
Qed.

(** C5.  On a valid election on which the loop of [rcv] is left by the
    majority exit with candidate [m], [rcv] returns [m], and [irv] returns
    [m] as well unless an elimination round at or after the exit round
    removes more than one candidate tied at the minimum; in that case the
    round removes all the remaining candidates and [irv] returns None. *)
Theorem rcv_early_exit_agrees_with_irv (e : election) (m : candidate) :
  Spec.valid e ->
  rcv_loop (length (candidates_for_election e)) e
    (fifty_percent_votes (length e)) (FrozenSet (candidates_for_election e))
  = Ret (inl m) ->
  rcv e = Ret (Some m)
  /\ (irv e = Ret (Some m)
      \/ (irv e = Ret None
          /\ exists B C,
               rounds e (candidates_for_election e) B
               /\ 1 < length B
               /\ Spec.leader B e m
               /\ Spec.majority_threshold (length e) <= Spec.score B e m
               /\ rounds e B C
               /\ 1 < length C
               /\ length (Spec.eliminate e C) + 2 <= length C)).
Proof.
  intros ((Hne & _) & final & En) H.
  split; [unfold rcv, rcv_from; cbv zeta; now rewrite H|].
  assert (L : 1 < length (candidates_for_election e)).
  { destruct (Nat.le_gt_cases (length (candidates_for_election e)) 1) as [L|L];
      [|exact L].
    rewrite rcv_loop_done in H by exact L. discriminate. }
  destruct (rcv_exit_point e _ m _ final Hne En _
              (FrozenSet (candidates_for_election e)) eq_refl H)
    as (B & R & LB & Ld & Th & EnB).
  assert (Ei : irv e = Ret (Spec.outcome final)).
  { unfold irv. now apply irv_from_engine. }
  pose proof (fifty_percent_is_half (length e)) as Half.
  destruct (half_holder_survives e m B final EnB (proj1 Ld) ltac:(lia))
    as [-> | (-> & C & RC & LC & EC)].
  - left. exact Ei.
  - right. split; [exact Ei|]. exists B, C.
    rewrite <- fifty_percent_votes_eq. rewrite EC. simpl.
    repeat split; try apply Ld; try assumption; lia.
Qed.

Lemma rcv_early_exit_agrees_with_irv_witness :
  rcv [[0; 1]; [0; 1]; [1; 0]]%Z = Ret (Some 0%Z)
  /\ (irv [[0; 1]; [0; 1]; [1; 0]]%Z = Ret (Some 0%Z)
      \/ (irv [[0; 1]; [0; 1]; [1; 0]]%Z = Ret None
          /\ exists B C,
               rounds [[0; 1]; [0; 1]; [1; 0]]%Z
                 (candidates_for_election [[0; 1]; [0; 1]; [1; 0]]%Z) B
               /\ 1 < length B
               /\ Spec.leader B [[0; 1]; [0; 1]; [1; 0]]%Z 0%Z
               /\ Spec.majority_threshold (length [[0; 1]; [0; 1]; [1; 0]]%Z)
                  <= Spec.score B [[0; 1]; [0; 1]; [1; 0]]%Z 0%Z
               /\ rounds [[0; 1]; [0; 1]; [1; 0]]%Z B C
               /\ 1 < length C
               /\ length (Spec.eliminate [[0; 1]; [0; 1]; [1; 0]]%Z C) + 2
                  <= length C)).
Proof.
  apply (rcv_early_exit_agrees_with_irv [[0; 1]; [0; 1]; [1; 0]]%Z 0%Z).
  - apply checked_valid. vm_compute. reflexivity.
  - vm_compute. reflexivity.
Defined.

(** C6.  The specification states that on every valid election each of
    [plurality], [irv] and [rcv] returns a candidate of the election or
    None.  On the valid election [[5]; [5]], whose only candidate is 5,
    [plurality] returns 5 but [irv] and [rcv] return nothing: both raise a
    TypeError (the subscripted frozenset of C1 and C2).  With two or more
    candidates the statement holds for all three
    ([winners_are_candidates]). *)
Theorem single_candidate_winner :
  Spec.valid [[5]; [5]]%Z
  /\ plurality [[5]; [5]]%Z = Ret (Some 5%Z)
  /\ irv [[5]; [5]]%Z = Raise TypeError
  /\ rcv [[5]; [5]]%Z = Raise TypeError.
Proof.
  split; [apply checked_valid; vm_compute; reflexivity|].
  split; [reflexivity|].
  apply single_candidate_raises with 5%Z. reflexivity.
Qed.

(** C7.  The loops of [irv] and [rcv] terminate.  Every round removes at
    least one active candidate: while the active set is not empty the losing
    score exists and the survivors are strictly fewer.  So a budget of as
    many rounds as the election has candidates is never used up, and on a
    valid election both loops come to their end, the loop of [irv] with at
    most one candidate left. *)
Theorem elimination_loops_terminate (e : election) (fuel : nat) :
  length (candidates_for_election e) <= fuel ->
  (forall (sc : Counter.t) (A : list candidate),
      A <> [] ->
      exists rest, survivors sc A = Ret rest /\ length rest < length A)
  /\ irv_loop fuel e (FrozenSet (candidates_for_election e)) <> OutOfRounds
  /\ rcv_loop fuel e (fifty_percent_votes (length e))
       (FrozenSet (candidates_for_election e)) <> OutOfRounds
  /\ (Spec.valid e ->
      (exists s, irv_loop fuel e (FrozenSet (candidates_for_election e)) = Ret s
                 /\ length (elems s) <= 1)
      /\ (exists r, rcv_loop fuel e (fifty_percent_votes (length e))
                      (FrozenSet (candidates_for_election e)) = Ret r)).
Proof.
  intros Hf. split; [exact survivors_shrink|].
  split; [now apply irv_loop_no_timeout|].
  split; [now apply rcv_loop_no_timeout|].
  intros ((Hne & _) & final & En). split.
  - rewrite (irv_loop_engine e _ final En fuel
               (FrozenSet (candidates_for_election e)) eq_refl Hf).
    eexists. split; [reflexivity|]. unfold final_state. simpl.
    destruct (Nat.leb_spec (length (candidates_for_election e)) 1);
      [assumption|]. simpl. now apply engine_final_small with e
                             (candidates_for_election e).
  - destruct (rcv_loop_engine e (fifty_percent_votes (length e)) _ final Hne En
                fuel (FrozenSet (candidates_for_election e)) eq_refl Hf)
      as (r & Hr & _).
    now exists r.
Qed.

Lemma elimination_loops_terminate_witness :
  irv_loop 3 [[0; 1; 2]; [1; 0; 2]; [2; 1; 0]; [0; 2; 1]]%Z
    (FrozenSet (candidates_for_election
                  [[0; 1; 2]; [1; 0; 2]; [2; 1; 0]; [0; 2; 1]]%Z))
  <> OutOfRounds.
Proof.
  apply (elimination_loops_terminate
           [[0; 1; 2]; [1; 0; 2]; [2; 1; 0]; [0; 2; 1]]%Z 3).
  vm_compute. apply le_n.
Defined.

(** Under the precondition of the pairwise counter the Counter it returns
    reads, at either candidate, as the number of votes that rank it before
    the other. *)
Lemma majority_preferences_reads (e : election) (a b : candidate) :
  a <> b -> Forall (fun v : vote => In a v /\ In b v) e ->
  majority_preferences e a b = Ret (Counter.of_list (map (pick a b) e))
  /\ Counter.get (Counter.of_list (map (pick a b) e)) a = Spec.prefer e a b
  /\ Counter.get (Counter.of_list (map (pick a b) e)) b = Spec.prefer e b a.
Proof.
  intros Hab H. split; [now apply majority_preferences_picks|].
  rewrite !get_of_list. destruct (count_picks e a b Hab) as (C1 & C2).
  pose proof (prefer_swap e a b Hab H) as Sw. unfold Spec.prefer in *.
  split; lia.
Qed.

(** C8.  For two distinct candidates that appear in every vote,
    [majority_preferences] returns a Counter in which each of the two counts
    the votes that rank it before the other, and the two counts add up to
    the number of votes. *)
Theorem majority_preferences_sum (e : election) (a b : candidate) :
  a <> b -> Forall (fun v : vote => In a v /\ In b v) e ->
  exists cnt, majority_preferences e a b = Ret cnt
    /\ Counter.get cnt a = Spec.prefer e a b
    /\ Counter.get cnt b = Spec.prefer e b a
    /\ Counter.get cnt a + Counter.get cnt b = length e.
Proof.
  intros Hab H. destruct (majority_preferences_reads e a b Hab H) as (E & Ga & Gb).
  exists (Counter.of_list (map (pick a b) e)). repeat split; try assumption.
  rewrite Ga, Gb. now apply prefer_swap.
Qed.

Lemma majority_preferences_sum_witness :
  exists cnt,
    majority_preferences [[0; 1; 2]; [2; 1; 0]; [1; 2; 0]]%Z 0%Z 2%Z = Ret cnt
    /\ Counter.get cnt 0%Z
       = Spec.prefer [[0; 1; 2]; [2; 1; 0]; [1; 2; 0]]%Z 0%Z 2%Z
    /\ Counter.get cnt 2%Z
       = Spec.prefer [[0; 1; 2]; [2; 1; 0]; [1; 2; 0]]%Z 2%Z 0%Z
    /\ Counter.get cnt 0%Z + Counter.get cnt 2%Z
       = length [[0; 1; 2]; [2; 1; 0]; [1; 2; 0]]%Z.
Proof.
  apply (majority_preferences_sum [[0; 1; 2]; [2; 1; 0]; [1; 2; 0]]%Z 0%Z 2%Z).
  - discriminate.
  - repeat apply Forall_cons; try apply Forall_nil; split; simpl; auto 10.
Defined.

(** C9, as stated, fails: the error raised when a vote lacks a queried
    candidate is not a distinct "candidate not ranked" error.  On
    [[0, 1, 2], [1, 2], [2, 1, 0]] queried with 0 and 1 the exception is the
    generic ValueError of [operator.indexOf], the very exception [plurality]
    raises on the election without votes. *)
Lemma unranked_error_is_not_distinct :
  ~ (exists x,
        majority_preferences [[0; 1; 2]; [1; 2]; [2; 1; 0]]%Z 0%Z 1%Z = Raise x
        /\ plurality [] <> Raise x).
Proof.
  intros (x & H & D). apply D. vm_compute in H. injection H as <-.
  reflexivity.
Qed.

(** C9, amended.  When some vote lacks one of the two queried candidates,
    [majority_preferences] raises the generic ValueError of
    [operator.indexOf] (not a dedicated error) and returns no count; it
    returns a Counter only when both candidates appear in every vote. *)
Theorem majority_preferences_unranked (e : election) (a b : candidate) :
  (Exists (fun v : vote => ~ (In a v /\ In b v)) e ->
   majority_preferences e a b = Raise ValueError)
  /\ (forall cnt, majority_preferences e a b = Ret cnt ->
                  Forall (fun v : vote => In a v /\ In b v) e).
Proof.
  assert (R : Exists (fun v : vote => ~ (In a v /\ In b v)) e ->
              majority_preferences e a b = Raise ValueError).
  { intros H. unfold majority_preferences.
    rewrite traverse_raise with (x := ValueError); [reflexivity | | ].
    - intros v _. destruct (in_dec Z.eq_dec a v) as [Ia | Na].
      + destruct (indexOf_present v a Ia) as (i1 & ->). simpl.
        destruct (in_dec Z.eq_dec b v) as [Ib | Nb].
        * destruct (indexOf_present v b Ib) as (i2 & ->). simpl. eauto.
        * rewrite (indexOf_missing v b Nb). now right.
      + rewrite (indexOf_missing v a Na). now right.
    - apply Exists_exists in H. destruct H as (v & Hv & N). exists v.
      split; [assumption|]. destruct (in_dec Z.eq_dec a v) as [Ia | Na].
      + destruct (indexOf_present v a Ia) as (i1 & ->). simpl.
        rewrite (indexOf_missing v b); [reflexivity | tauto].
      + now rewrite (indexOf_missing v a Na). }
  split; [exact R|]. intros cnt E. apply Forall_forall. intros v Hv.
  destruct (in_dec Z.eq_dec a v) as [Ia | Na],
      (in_dec Z.eq_dec b v) as [Ib | Nb]; [tauto | | | ];
    exfalso; rewrite R in E; try discriminate;
    apply Exists_exists; exists v; tauto.
Qed.

Lemma majority_preferences_unranked_witness :
  majority_preferences [[0; 1; 2]; [1; 2]; [2; 1; 0]]%Z 0%Z 1%Z
  = Raise ValueError.
Proof.
  apply (majority_preferences_unranked [[0; 1; 2]; [1; 2]; [2; 1; 0]]%Z 0%Z 1%Z).
  apply Exists_cons_tl. apply Exists_cons_hd. simpl. intros (H & _).
  destruct H as [H | [H | []]]; discriminate H.
Defined.

(** C10.  For two distinct candidates that appear in every vote of a
    non-empty election, every key of the Counter [majority_preferences]
    returns is one of the two candidates and is stored with a positive
    count, the number of votes that rank it before the other.  When every
    vote ranks [a] before [b] the Counter is the single entry
    [{a: len(election)}]: it has no entry for [b], which reads as 0. *)
Theorem majority_preferences_keys (e : election) (a b : candidate) :
  e <> [] -> a <> b -> Forall (fun v : vote => In a v /\ In b v) e ->
  exists cnt, majority_preferences e a b = Ret cnt
    /\ (forall k n, In (k, n) (Counter.items cnt) ->
          1 <= n /\ ((k = a /\ n = Spec.prefer e a b)
                     \/ (k = b /\ n = Spec.prefer e b a)))
    /\ (Forall (fun v : vote => Spec.ranks_first a b v = true) e ->
        cnt = [(a, length e)] /\ Counter.get cnt b = 0).
Proof.
  intros Hne Hab H.
  destruct (majority_preferences_reads e a b Hab H) as (E & Ga & Gb).
  exists (Counter.of_list (map (pick a b) e)). split; [exact E|]. split.
  - intros k n I. unfold Counter.items in I.
    apply (wf_In_iff _ k n (wf_of_list _)) in I. destruct I as (G & P).
    split; [exact P|].
    assert (Ik : In k (map (pick a b) e)).
    { apply (count_occ_In Z.eq_dec). rewrite <- get_of_list. lia. }
    apply in_map_iff in Ik. destruct Ik as (v & Ev & _). unfold pick in Ev.
    destruct (Spec.ranks_first a b v); subst k; [left | right];
      split; congruence.
  - intros All.
    assert (P : map (pick a b) e = repeat a (length e)).
    { clear - All. induction All as [|v e Hv _ IH]; [reflexivity|]. simpl.
      unfold pick at 1. now rewrite Hv, IH. }
    rewrite P. destruct e as [|v e']; [congruence|]. simpl.
    unfold Counter.of_list. simpl. rewrite of_list_all_same. simpl.
    split; [reflexivity|].
    destruct (Z.eqb_spec b a); [congruence | reflexivity].
Qed.

Lemma majority_preferences_keys_witness :
  exists cnt,
    majority_preferences [[0; 1; 2]; [0; 2; 1]]%Z 0%Z 2%Z = Ret cnt
    /\ (forall k n, In (k, n) (Counter.items cnt) ->
          1 <= n
          /\ ((k = 0%Z /\ n = Spec.prefer [[0; 1; 2]; [0; 2; 1]]%Z 0%Z 2%Z)
              \/ (k = 2%Z /\ n = Spec.prefer [[0; 1; 2]; [0; 2; 1]]%Z 2%Z 0%Z)))
    /\ (Forall (fun v : vote => Spec.ranks_first 0%Z 2%Z v = true)
          [[0; 1; 2]; [0; 2; 1]]%Z ->
        cnt = [(0%Z, length [[0; 1; 2]; [0; 2; 1]]%Z)]
        /\ Counter.get cnt 2%Z = 0).
Proof.
  apply (majority_preferences_keys [[0; 1; 2]; [0; 2; 1]]%Z 0%Z 2%Z).
  - discriminate.
  - discriminate.
  - repeat apply Forall_cons; try apply Forall_nil; split; simpl; auto 10.
Defined.

(** ** Further properties of the resolvers *)

(** Every vote either reaches an active candidate or some vote does not. *)
Lemma names_active_cases (A : list candidate) (e : election) :
  Forall (Spec.names_active A) e
  \/ Exists (fun v => ~ Spec.names_active A v) e.
Proof.
  induction e as [|v e [IH | IH]].
  - left. constructor.
  - destruct (Spec.top_choice A v) as [x|] eqn:T.
    + left. constructor; [|assumption]. exists x.
      apply top_choice_sound in T. tauto.
    + right. apply Exists_cons_hd. now apply top_choice_undefined.
  - right. now apply Exists_cons_tl.
Qed.

Lemma of_list_nonempty (xs : list candidate) :
  xs <> [] -> Counter.of_list xs <> [].
Proof.
  destruct xs as [|x r]; [congruence|]. intros _ E.
  pose proof (get_of_list (x :: r) x) as G. rewrite E in G. simpl in G.
  destruct (Z.eq_dec x x); [discriminate | congruence].
Qed.

(** What the loop of [irv] can end in once it has run a round. *)
Lemma irv_loop_shape (e : election) (fuel : nat) (s : pyseq) :
  1 < length (elems s) -> length (elems s) <= fuel ->
  irv_loop fuel e s = Raise RuntimeError
  \/ exists l, irv_loop fuel e s = Ret (PyList l)
               /\ length l <= 1 /\ incl l (elems s).
Proof.
  revert s. induction fuel as [|fuel IH]; intros s L Hf; [lia|].
  rewrite irv_loop_round by assumption.
  destruct (names_active_cases (elems s) e) as [Hn | Hx].
  - destruct (round_scores_spec (elems s) e Hn) as (sc & -> & G & _). simpl.
    rewrite (survivors_spec sc _ e (nonempty_of_length _ L) G). simpl.
    pose proof (eliminate_shrinks e _ (nonempty_of_length _ L)) as Sh.
    destruct (Nat.le_gt_cases (length (Spec.eliminate e (elems s))) 1)
      as [L' | L'].
    + right. exists (Spec.eliminate e (elems s)).
      rewrite irv_loop_done by exact L'.
      repeat split; [assumption|]. intros c. apply eliminate_incl.
    + destruct (IH (PyList (Spec.eliminate e (elems s))) L' ltac:(simpl; lia))
        as [-> | (l & -> & Hl & Hi)]; [now left|].
      right. exists l. repeat split; [assumption|].
      intros c Hc. apply eliminate_incl with e. now apply Hi.
  - left. now rewrite (round_scores_exhausted _ _ Hx).
Qed.

(** What the loop of [rcv] can end in once it has run a round. *)
Lemma rcv_loop_shape (e : election) (thr fuel : nat) (s : pyseq) :
  e <> [] -> 1 < length (elems s) -> length (elems s) <= fuel ->
  rcv_loop fuel e thr s = Raise RuntimeError
  \/ (exists m, rcv_loop fuel e thr s = Ret (inl m) /\ In m (elems s))
  \/ exists l, rcv_loop fuel e thr s = Ret (inr (PyList l))
               /\ length l <= 1 /\ incl l (elems s).
Proof.
  intros Hne. revert s. induction fuel as [|fuel IH]; intros s L Hf; [lia|].
  rewrite rcv_loop_round by assumption.
  destruct (names_active_cases (elems s) e) as [Hn | Hx].
  - destruct (round_scores_spec (elems s) e Hn) as (sc & -> & G & W & K & NE).
    simpl.
    destruct (most_common_spec sc (NE Hne)) as (m & n & -> & I & M). simpl.
    destruct (most_common_leader _ e sc m n G W K I M) as ((Hm & _) & _).
    destruct (thr <=? n); [right; left; now exists m|].
    rewrite (survivors_spec sc _ e (nonempty_of_length _ L) G). simpl.
    pose proof (eliminate_shrinks e _ (nonempty_of_length _ L)) as Sh.
    destruct (Nat.le_gt_cases (length (Spec.eliminate e (elems s))) 1)
      as [L' | L'].
    + right. right. exists (Spec.eliminate e (elems s)).
      rewrite rcv_loop_done by exact L'.
      repeat split; [assumption|]. intros c. apply eliminate_incl.
    + destruct (IH (PyList (Spec.eliminate e (elems s))) L' ltac:(simpl; lia))
        as [-> | [(m' & -> & Hm') | (l & -> & Hl & Hi)]]; [now left | |].
      * right. left. exists m'. split; [reflexivity|].
        now apply eliminate_incl with e.
      * right. right. exists l. repeat split; [assumption|].
        intros c Hc. apply eliminate_incl with e. now apply Hi.
  - left. now rewrite (round_scores_exhausted _ _ Hx).
Qed.

Lemma candidates_nonempty_election (e : election) :
  candidates_for_election e <> [] -> e <> [].
Proof. intros H ->. now apply H. Qed.

(** The possible results of [irv] and [rcv] on an election with two or more
    candidates. *)
Lemma two_candidates_outcomes (e : election) :
  1 < length (candidates_for_election e) ->
  (irv e = Raise RuntimeError \/ irv e = Ret None
   \/ exists c, irv e = Ret (Some c) /\ Spec.is_candidate e c)
  /\ (rcv e = Raise RuntimeError \/ rcv e = Ret None
      \/ exists c, rcv e = Ret (Some c) /\ Spec.is_candidate e c).
Proof.
  intros L.
  assert (Hne : e <> []).
  { apply candidates_nonempty_election. now apply nonempty_of_length. }
  split.
  - unfold irv, irv_from.
    destruct (irv_loop_shape e (length (candidates_for_election e))
                (FrozenSet (candidates_for_election e)) L (le_n _))
      as [-> | (l & -> & Hl & Hi)]; [now left|]. right.
    destruct l as [|c [|d r]]; simpl in *; [now left | | lia].
    right. exists c. split; [reflexivity|]. apply candidates_iff, Hi. now left.
  - unfold rcv, rcv_from. cbv zeta.
    destruct (rcv_loop_shape e (fifty_percent_votes (length e))
                (length (candidates_for_election e))
                (FrozenSet (candidates_for_election e)) Hne L (le_n _))
      as [-> | [(m & -> & Hm) | (l & -> & Hl & Hi)]]; [now left | |].
    + right. right. exists m. split; [reflexivity | now apply candidates_iff].
    + right. destruct l as [|c [|d r]]; simpl in *; [now left | | lia].
      right. exists c. split; [reflexivity|]. apply candidates_iff, Hi.
      now left.
Qed.

Lemma no_candidates_outcomes (e : election) :
  candidates_for_election e = [] -> irv e = Ret None /\ rcv e = Ret None.
Proof.
  intros E. unfold irv, rcv, irv_from, rcv_from. rewrite E. split; reflexivity.
Qed.

Lemma length_one (l : list candidate) : length l = 1 -> exists c, l = [c].
Proof. destruct l as [|c [|d r]]; simpl; try discriminate. eauto. Qed.

Lemma plurality_empty_vote (e : election) :
  Exists (fun v : vote => v = []) e -> plurality e = Raise IndexError.
Proof.
  intros H. unfold plurality.
  rewrite traverse_raise with (x := IndexError); [reflexivity | | ].
  - intros v _. destruct v; simpl; eauto.
  - apply Exists_exists in H. destruct H as (v & Hv & ->). now exists [].
Qed.

(** X1.  [plurality] raises a ValueError on the election without votes and
    an IndexError as soon as some vote is empty; on every other election it
    returns. *)
Theorem plurality_errors (e : election) :
  (e = [] -> plurality e = Raise ValueError)
  /\ (Exists (fun v : vote => v = []) e -> plurality e = Raise IndexError)
  /\ (e <> [] -> Forall (fun v : vote => v <> []) e ->
      exists r, plurality e = Ret r).
Proof.
  split; [intros ->; reflexivity|]. split.
  - apply plurality_empty_vote.
  - intros Hne Hv.
    destruct (plurality_cases e Hne Hv) as [(-> & _) | (w & -> & _)]; eauto.
Qed.

Lemma plurality_errors_witness :
  plurality [[0; 1]; []; [1; 0]]%Z = Raise IndexError.
Proof.
  apply (plurality_errors [[0; 1]; []; [1; 0]]%Z).
  apply Exists_cons_tl. apply Exists_cons_hd. reflexivity.
Defined.

(** X2.  On an election that names no candidate at all (no vote, or only
    empty votes) [irv] and [rcv] return None, where [plurality] raises. *)
Theorem no_candidate_election (e : election) :
  Forall (fun v : vote => v = []) e ->
  irv e = Ret None /\ rcv e = Ret None
  /\ (plurality e = Raise ValueError \/ plurality e = Raise IndexError).
Proof.
  intros H.
  assert (E : candidates_for_election e = []).
  { unfold candidates_for_election.
    assert (C : concat e = []).
    { induction H as [|v e -> _ IH]; [reflexivity | exact IH]. }
    now rewrite C. }
  destruct (no_candidates_outcomes e E) as (-> & ->).
  repeat split. destruct e as [|v e']; [now left|]. right.
  apply plurality_empty_vote. inversion H; subst. now apply Exists_cons_hd.
Qed.

Lemma no_candidate_election_witness :
  irv [[]; []] = Ret None /\ rcv [[]; []] = Ret None
  /\ (plurality [[]; []] = Raise ValueError
      \/ plurality [[]; []] = Raise IndexError).
Proof.
  apply (no_candidate_election [[]; []]). repeat constructor.
Defined.

(** X3.  [irv] and [rcv] raise a TypeError exactly on the elections that
    have a single candidate. *)
Theorem type_error_iff_single_candidate (e : election) :
  (irv e = Raise TypeError <-> length (candidates_for_election e) = 1)
  /\ (rcv e = Raise TypeError <-> length (candidates_for_election e) = 1).
Proof.
  assert (Back : length (candidates_for_election e) = 1 ->
                 irv e = Raise TypeError /\ rcv e = Raise TypeError).
  { intros H. destruct (length_one _ H) as (c & E).
    now apply single_candidate_raises with c. }
  assert (Cases : length (candidates_for_election e) = 0
                  \/ length (candidates_for_election e) = 1
                  \/ 1 < length (candidates_for_election e)) by lia.
  split; (split; [|apply Back]); intros H;
    destruct Cases as [Z | [O | L]]; try exact O; exfalso.
  - apply length_zero_iff_nil in Z.
    destruct (no_candidates_outcomes e Z) as (E & _). congruence.
  - destruct (two_candidates_outcomes e L) as ([E | [E | (c & E & _)]] & _);
      congruence.
  - apply length_zero_iff_nil in Z.
    destruct (no_candidates_outcomes e Z) as (_ & E). congruence.
  - destruct (two_candidates_outcomes e L) as (_ & [E | [E | (c & E & _)]]);
      congruence.
Qed.

(** X4.  On an election with two or more candidates, an empty vote makes
    [irv] and [rcv] raise in their first round. *)
Theorem empty_vote_raises (e : election) :
  1 < length (candidates_for_election e) ->
  Exists (fun v : vote => v = []) e ->
  irv e = Raise RuntimeError /\ rcv e = Raise RuntimeError.
Proof.
  intros L H.
  assert (X : round_scores (candidates_for_election e) e = Raise RuntimeError).
  { apply round_scores_exhausted. apply Exists_exists in H.
    destruct H as (v & Hv & ->). apply Exists_exists. exists []. split;
      [assumption|]. intros (c & [] & _). }
  unfold irv, rcv, irv_from, rcv_from. cbv zeta.
  destruct (length (candidates_for_election e)) as [|n] eqn:El; [lia|].
  rewrite irv_loop_round, rcv_loop_round by (simpl; lia). simpl.
  rewrite X. split; reflexivity.
Qed.

Lemma empty_vote_raises_witness :
  irv [[0; 1]; []; [1; 0]]%Z = Raise RuntimeError
  /\ rcv [[0; 1]; []; [1; 0]]%Z = Raise RuntimeError.
Proof.
  apply (empty_vote_raises [[0; 1]; []; [1; 0]]%Z).
  - vm_compute. apply le_n.
  - apply Exists_cons_tl. apply Exists_cons_hd. reflexivity.
Defined.

(** X5.  Whatever the election, [irv] and [rcv] end in one of four ways:
    None, a candidate of the election, a TypeError or a RuntimeError.  They
    never raise an IndexError or a ValueError, and the round budget is never
    used up. *)
Theorem irv_rcv_outcomes (e : election) :
  (irv e = Ret None
   \/ (exists c, irv e = Ret (Some c) /\ Spec.is_candidate e c)
   \/ irv e = Raise TypeError \/ irv e = Raise RuntimeError)
  /\ (rcv e = Ret None
      \/ (exists c, rcv e = Ret (Some c) /\ Spec.is_candidate e c)
      \/ rcv e = Raise TypeError \/ rcv e = Raise RuntimeError).
Proof.
  assert (Cases : length (candidates_for_election e) = 0
                  \/ length (candidates_for_election e) = 1
                  \/ 1 < length (candidates_for_election e)) by lia.
  destruct Cases as [Z | [O | L]].
  - apply length_zero_iff_nil in Z.
    destruct (no_candidates_outcomes e Z) as (-> & ->). split; now left.
  - destruct (length_one _ O) as (c & E).
    destruct (single_candidate_raises e c E) as (-> & ->). split; tauto.
  - destruct (two_candidates_outcomes e L) as (I & R). split.
    + destruct I as [-> | [-> | (c & -> & Hc)]]; eauto 6.
    + destruct R as [-> | [-> | (c & -> & Hc)]]; eauto 6.
Qed.

(** As long as the loop of [rcv] is not left by the majority exit it does
    what the loop of [irv] does. *)
Lemma rcv_loop_irv_loop (e : election) (thr fuel : nat) (s : pyseq) :
  e <> [] ->
  match rcv_loop fuel e thr s with
  | Ret (inl _) => True
  | Ret (inr t) => irv_loop fuel e s = Ret t
  | Raise x => irv_loop fuel e s = Raise x
  | OutOfRounds => irv_loop fuel e s = OutOfRounds
  end.
Proof.
  intros Hne. revert s. induction fuel as [|fuel IH]; intros s.
  - simpl. destruct (length (elems s) <=? 1); reflexivity.
  - destruct (Nat.le_gt_cases (length (elems s)) 1) as [L | L].
    + rewrite rcv_loop_done, irv_loop_done by assumption. reflexivity.
    + rewrite rcv_loop_round, irv_loop_round by assumption.
      destruct (names_active_cases (elems s) e) as [Hn | Hx].
      * destruct (round_scores_spec (elems s) e Hn) as (sc & -> & G & W & K & NE).
        simpl.
        destruct (most_common_spec sc (NE Hne)) as (m & n & -> & _). simpl.
        destruct (thr <=? n); [exact I|].
        destruct (survivors sc (elems s)) as [rest| |]; simpl;
          [apply IH | reflexivity | reflexivity].
      * rewrite (round_scores_exhausted _ _ Hx). reflexivity.
Qed.

(** X6.  [rcv] differs from [irv] only through its majority exit: on every
    election, either the loop of [rcv] is left early with some candidate,
    which [rcv] returns, or [rcv] ends exactly as [irv] does, exceptions
    included. *)
Theorem rcv_is_irv_unless_early_exit (e : election) :
  (exists m,
      rcv_loop (length (candidates_for_election e)) e
        (fifty_percent_votes (length e))
        (FrozenSet (candidates_for_election e)) = Ret (inl m)
      /\ rcv e = Ret (Some m))
  \/ rcv e = irv e.
Proof.
  destruct e as [|v e']; [right; reflexivity|].
  pose proof (rcv_loop_irv_loop (v :: e')
                (fifty_percent_votes (length (v :: e')))
                (length (candidates_for_election (v :: e')))
                (FrozenSet (candidates_for_election (v :: e')))
                ltac:(discriminate)) as H.
  unfold rcv, irv, rcv_from, irv_from. cbv zeta.
  destruct (rcv_loop _ _ _ _) as [[m | t]| |] eqn:E.
  - left. exists m. split; reflexivity.
  - right. now rewrite H.
  - right. now rewrite H.
  - right. now rewrite H.
Qed.

(** In the first round, with every candidate active, a vote counts for its
    first choice. *)
Lemma score_first_round (e : election) (c : candidate) :
  Spec.score (candidates_for_election e) e c = Spec.first_choice_tally e c.
Proof.
  unfold Spec.score, Spec.first_choice_tally. f_equal.
  apply filter_ext_in. intros v Hv. destruct v as [|x r]; [reflexivity|].
  simpl. destruct (in_dec Z.eq_dec x (candidates_for_election e)) as [_ | N];
    [reflexivity|].
  exfalso. apply N. apply candidates_iff. exists (x :: r). split;
    [assumption | now left].
Qed.

Lemma first_choice_disjoint (e : election) (a b : candidate) :
  a <> b ->
  Spec.first_choice_tally e a + Spec.first_choice_tally e b <= length e.
Proof.
  intros Hab. rewrite <- !score_first_round. now apply score_disjoint.
Qed.

Lemma fifty_percent_least (n k : nat) :
  n <= 2 * k -> fifty_percent_votes n <= k.
Proof.
  unfold fifty_percent_votes. intros H.
  pose proof (Nat.div_mod_eq n 2) as D.
  pose proof (Nat.mod_upper_bound n 2 ltac:(lia)) as U.
  destruct (Nat.eqb_spec (n mod 2) 0); lia.
Qed.

Lemma NoDup_two_distinct (l : list candidate) (w : candidate) :
  NoDup l -> 1 < length l -> exists c, In c l /\ c <> w.
Proof.
  intros ND L. destruct l as [|a [|b r]]; simpl in L; try lia.
  destruct (Z.eq_dec a w) as [-> | Na].
  - exists b. split; [right; now left|]. intros ->.
    inversion ND as [|? ? Hn _]. apply Hn. now left.
  - exists a. split; [now left | assumption].
Qed.

Lemma eliminate_NoDup (e : election) (A : list candidate) :
  NoDup A -> NoDup (Spec.eliminate e A).
Proof. intros H. unfold Spec.eliminate. now apply NoDup_filter. Qed.

(** A candidate holding more than half of the votes outlives every other
    candidate. *)
Lemma majority_holder_wins (e : election) (w : candidate)
  (B final : list candidate) :
  Spec.engine e B final ->
  NoDup B -> In w B -> length e < 2 * Spec.score B e w ->
  final = [w].
Proof.
  induction 1 as [B L | B final L Hn Hrest IH]; intros ND Hw Hm.
  - destruct B as [|c [|d r]]; simpl in *; [tauto | | lia].
    destruct Hw as [-> | []]. reflexivity.
  - assert (I : In w (Spec.eliminate e B)).
    { unfold Spec.eliminate. apply filter_In. split; [assumption|].
      apply negb_true_iff, Nat.eqb_neq. intros Em.
      destruct (NoDup_two_distinct B w ND L) as (c & Hc & Ncw).
      destruct (min_score_spec B e (nonempty_of_length _ L)) as (_ & Hmin).
      specialize (Hmin c Hc).
      pose proof (score_disjoint B e c w Ncw). lia. }
    apply IH; [now apply eliminate_NoDup | assumption |].
    pose proof (score_mono B (Spec.eliminate e B) e w (eliminate_incl e B) I).
    lia.
Qed.

(** The three resolvers on an election with an absolute majority of first
    choices. *)
Lemma majority_first_choice_wins (e : election) (w : candidate) :
  Spec.valid e -> 1 < length (candidates_for_election e) ->
  length e < 2 * Spec.first_choice_tally e w ->
  plurality e = Ret (Some w) /\ irv e = Ret (Some w) /\ rcv e = Ret (Some w).
Proof.
  intros V L Hm. pose proof V as ((Hne & Hv) & final & En).
  assert (Hv' : Forall (fun v : vote => v <> []) e).
  { apply Forall_forall. intros v I. rewrite Forall_forall in Hv.
    now destruct (Hv v I). }
  assert (Hw : In w (candidates_for_election e)).
  { apply candidates_iff. apply first_choice_is_candidate. lia. }
  split; [|split].
  - destruct (plurality_cases e Hne Hv')
      as [(_ & a & b & Hab & Eab & Max) | (x & -> & _ & Strict)].
    + exfalso. pose proof (first_choice_disjoint e a b Hab).
      specialize (Max w). lia.
    + destruct (Z.eq_dec x w) as [-> | N]; [reflexivity|]. exfalso.
      pose proof (first_choice_disjoint e w x (not_eq_sym N)).
      specialize (Strict w (not_eq_sym N)). lia.
  - destruct (irv_follows_engine e V L) as (final' & En' & ->).
    rewrite (majority_holder_wins e w _ final' En' (candidates_NoDup e) Hw);
      [reflexivity|]. now rewrite score_first_round.
  - unfold rcv, rcv_from. cbv zeta.
    destruct (length (candidates_for_election e)) as [|n] eqn:El; [lia|].
    rewrite rcv_loop_round by (simpl; lia). simpl.
    assert (Hn : Forall (Spec.names_active (candidates_for_election e)) e).
    { inversion En; subst; [lia | assumption]. }
    destruct (round_scores_spec _ e Hn) as (sc & -> & G & W & K & NE). simpl.
    destruct (most_common_spec sc (NE Hne)) as (m & k & -> & I & M). simpl.
    destruct (most_common_leader _ e sc m k G W K I M) as ((_ & Ld) & Ek).
    specialize (Ld w Hw). rewrite !score_first_round in Ld.
    rewrite score_first_round in Ek.
    assert (m = w).
    { destruct (Z.eq_dec m w) as [E | N]; [exact E|]. exfalso.
      pose proof (first_choice_disjoint e m w N). lia. }
    subst m.
    pose proof (fifty_percent_least (length e) k ltac:(lia)) as Th.
    apply Nat.leb_le in Th. now rewrite Th.
Qed.

(** X7.  When a candidate is the first choice of more than half of the
    voters of a valid election with two or more candidates, [plurality],
    [irv] and [rcv] all return that candidate. *)
Theorem absolute_majority_wins (e : election) (w : candidate) :
  Spec.valid e -> 1 < length (candidates_for_election e) ->
  length e < 2 * Spec.first_choice_tally e w ->
  plurality e = Ret (Some w) /\ irv e = Ret (Some w) /\ rcv e = Ret (Some w).
Proof. exact (majority_first_choice_wins e w). Qed.

Lemma absolute_majority_wins_witness :
  plurality [[1; 0; 2]; [2; 1; 0]; [1; 2; 0]]%Z = Ret (Some 1%Z)
  /\ irv [[1; 0; 2]; [2; 1; 0]; [1; 2; 0]]%Z = Ret (Some 1%Z)
  /\ rcv [[1; 0; 2]; [2; 1; 0]; [1; 2; 0]]%Z = Ret (Some 1%Z).
Proof.
  apply (absolute_majority_wins [[1; 0; 2]; [2; 1; 0]; [1; 2; 0]]%Z 1%Z).
  - apply checked_valid. vm_compute. reflexivity.
  - vm_compute. apply le_S, le_n.
  - vm_compute. apply le_n.
Defined.

(** X8.  On a valid election with two or more candidates, a candidate that
    [plurality], [irv] or [rcv] returns is the first choice of at least one
    voter. *)
Theorem winner_has_first_choices (e : election) (c : candidate) :
  Spec.valid e -> 1 < length (candidates_for_election e) ->
  plurality e = Ret (Some c) \/ irv e = Ret (Some c) \/ rcv e = Ret (Some c) ->
  1 <= Spec.first_choice_tally e c.
Proof.
  intros V L H. pose proof V as ((Hne & Hv) & _).
  assert (Survive : In c (Spec.eliminate e (candidates_for_election e)) ->
                    1 <= Spec.first_choice_tally e c).
  { intros I. unfold Spec.eliminate in I. apply filter_In in I.
    destruct I as (Hc & Ne). apply negb_true_iff, Nat.eqb_neq in Ne.
    destruct (min_score_spec (candidates_for_election e) e
                (nonempty_of_length _ L)) as (_ & Hmin).
    specialize (Hmin c Hc). rewrite score_first_round in *. lia. }
  destruct H as [H | [H | H]].
  - assert (Hv' : Forall (fun v : vote => v <> []) e).
    { apply Forall_forall. intros v I. rewrite Forall_forall in Hv.
      now destruct (Hv v I). }
    destruct (plurality_cases e Hne Hv') as [(E & _) | (w & E & P & _)];
      [congruence|].
    rewrite E in H. injection H as <-. lia.
  - destruct (irv_follows_engine e V L) as (final & En & E).
    rewrite E in H. injection H as O. apply outcome_In in O.
    inversion En; subst; [lia|]. apply Survive.
    now apply (engine_final_incl e _ final).
  - destruct (rcv_follows_engine e V L) as (r & E & Hr).
    rewrite E in H. injection H as ->.
    inversion Hr as [A L' | A m L' Hn (Hm & _) Th | A m r L' Hn Ld Th Hr'];
      subst; [lia | |].
    + rewrite score_first_round in Th.
      assert (1 <= Spec.majority_threshold (length e)); [|lia].
      rewrite <- fifty_percent_votes_eq.
      pose proof (fifty_percent_is_half (length e)).
      destruct e; [congruence | simpl in *; lia].
    + apply Survive. now apply (rcv_engine_In e _ _ _ Hr').
Qed.

Lemma winner_has_first_choices_witness :
  1 <= Spec.first_choice_tally [[0; 1]; [0; 1]; [1; 0]]%Z 0%Z.
Proof.
  apply (winner_has_first_choices [[0; 1]; [0; 1]; [1; 0]]%Z 0%Z).
  - apply checked_valid. vm_compute. reflexivity.
  - vm_compute. apply le_n.
  - right. left. reflexivity.
Defined.

(** ** The order of the ballots *)

Lemma first_choice_tally_perm (e e' : election) (c : candidate) :
  Permutation e e' ->
  Spec.first_choice_tally e c = Spec.first_choice_tally e' c.
Proof.
  intros P. unfold Spec.first_choice_tally.
  apply Permutation_length. now apply Permutation_filter.
Qed.

Lemma score_perm (A : list candidate) (e e' : election) (c : candidate) :
  Permutation e e' -> Spec.score A e c = Spec.score A e' c.
Proof.
  intros P. unfold Spec.score.
  apply Permutation_length. now apply Permutation_filter.
Qed.

Lemma empty_vote_cases (e : election) :
  Forall (fun v : vote => v <> []) e \/ Exists (fun v : vote => v = []) e.
Proof.
  induction e as [|v e [IH | IH]].
  - left. constructor.
  - destruct v as [|x r].
    + right. now apply Exists_cons_hd.
    + left. constructor; [discriminate | assumption].
  - right. now apply Exists_cons_tl.
Qed.

(** [plurality] depends on the election through the first-choice tallies
    only. *)
Lemma plurality_by_tally (e e' : election) :
  e <> [] -> Forall (fun v : vote => v <> []) e ->
  e' <> [] -> Forall (fun v : vote => v <> []) e' ->
  (forall c, Spec.first_choice_tally e c = Spec.first_choice_tally e' c) ->
  plurality e = plurality e'.
Proof.
  intros Hne Hv Hne' Hv' T.
  destruct (plurality_cases e Hne Hv)
    as [(-> & a & b & Hab & Eab & Max) | (w & -> & _ & Strict)];
    destruct (plurality_cases e' Hne' Hv')
      as [(-> & a' & b' & Hab' & Eab' & Max') | (w' & -> & _ & Strict')].
  - reflexivity.
  - exfalso. rewrite !T in Eab. assert (Max2 := Max w'). rewrite !T in Max2.
    destruct (Z.eq_dec a w') as [-> | Na].
    + specialize (Strict' b (not_eq_sym Hab)). lia.
    + specialize (Strict' a Na). lia.
  - exfalso. rewrite <- !T in Eab'. assert (Max2 := Max' w).
    rewrite <- !T in Max2.
    destruct (Z.eq_dec a' w) as [-> | Na].
    + specialize (Strict b' (not_eq_sym Hab')). lia.
    + specialize (Strict a' Na). lia.
  - destruct (Z.eq_dec w w') as [-> | N]; [reflexivity|]. exfalso.
    specialize (Strict w' (not_eq_sym N)). specialize (Strict' w N).
    rewrite !T in Strict. lia.
Qed.

Lemma Exists_perm {A : Type} (P : A -> Prop) (l l' : list A) :
  Permutation l l' -> Exists P l -> Exists P l'.
Proof.
  intros Pm H. apply Exists_exists in H. destruct H as (x & Hx & Px).
  apply Exists_exists. exists x. split; [|assumption].
  now apply Permutation_in with l.
Qed.

Lemma Forall_perm {A : Type} (P : A -> Prop) (l l' : list A) :
  Permutation l l' -> Forall P l -> Forall P l'.
Proof.
  intros Pm H. rewrite Forall_forall in *. intros x Hx. apply H.
  apply Permutation_in with l'; [now symmetry | assumption].
Qed.

Lemma plurality_perm (e e' : election) :
  Permutation e e' -> plurality e = plurality e'.
Proof.
  intros P. destruct (empty_vote_cases e) as [Hv | Hx].
  - destruct e as [|v e0].
    + apply Permutation_nil in P. now subst.
    + apply plurality_by_tally.
      * discriminate.
      * assumption.
      * intros ->. symmetry in P. apply Permutation_nil in P. discriminate.
      * now apply Forall_perm with (v :: e0).
      * intros c. now apply first_choice_tally_perm.
  - rewrite (plurality_empty_vote e Hx).
    now rewrite (plurality_empty_vote e' (Exists_perm _ _ _ P Hx)).
Qed.

(** The tally of a round does not depend on the order of the ballots,
    except for the order of its entries. *)
Lemma round_scores_anon (A : list candidate) (e e' : election) :
  Permutation e e' ->
  same_outcome (fun sc sc' => forall c, Counter.get sc c = Counter.get sc' c)
    (round_scores A e) (round_scores A e').
Proof.
  intros P. destruct (names_active_cases A e) as [Hn | Hx].
  - destruct (round_scores_spec A e Hn) as (sc & -> & G & _).
    destruct (round_scores_spec A e' (Forall_perm _ _ _ P Hn))
      as (sc' & -> & G' & _).
    simpl. intros c. rewrite G, G'. now apply score_perm.
  - rewrite (round_scores_exhausted A e Hx).
    rewrite (round_scores_exhausted A e' (Exists_perm _ _ _ P Hx)).
    reflexivity.
Qed.

Lemma survivors_ext (sc sc' : Counter.t) (A : list candidate) :
  (forall c, Counter.get sc c = Counter.get sc' c) ->
  survivors sc A = survivors sc' A.
Proof.
  intros G. unfold survivors.
  rewrite (map_ext _ _ G). destruct (pymin (map (Counter.get sc') A)); simpl;
    try reflexivity.
  f_equal. apply filter_ext. intros c. now rewrite G.
Qed.

Lemma irv_loop_anon (fuel : nat) (e e' : election) (s : pyseq) :
  Permutation e e' -> irv_loop fuel e s = irv_loop fuel e' s.
Proof.
  intros P. revert s. induction fuel as [|fuel IH]; intros s; simpl;
    destruct (length (elems s) <=? 1); try reflexivity.
  pose proof (round_scores_anon (elems s) e e' P) as R.
  destruct (round_scores (elems s) e) as [sc| |],
      (round_scores (elems s) e') as [sc'| |]; simpl in *;
    try tauto; try congruence.
  rewrite (survivors_ext sc sc' _ R).
  destruct (survivors sc' (elems s)); simpl; try reflexivity. apply IH.
Qed.

Lemma candidates_perm (e e' : election) :
  Permutation e e' ->
  Permutation (candidates_for_election e) (candidates_for_election e').
Proof.
  intros P. apply NoDup_Permutation; try apply candidates_NoDup.
  intros c. rewrite !candidates_iff. unfold Spec.is_candidate.
  split; intros (v & Hv & Hc); exists v; split; try assumption.
  - now apply Permutation_in with e.
  - apply Permutation_in with e'; [now symmetry | assumption].
Qed.

(** X9.  [plurality] and [irv] are anonymous: they end in the same way,
    exceptions included, whatever the order of the ballots. *)
Theorem plurality_irv_anonymous (e e' : election) :
  Permutation e e' -> plurality e = plurality e' /\ irv e = irv e'.
Proof.
  intros P. split; [now apply plurality_perm|].
  pose proof (candidates_perm e e' P) as Pc.
  unfold irv. rewrite <- (Permutation_length Pc).
  rewrite <- (irv_from_any_order _ _ _ e' Pc).
  unfold irv_from. now rewrite (irv_loop_anon _ e e' _ P).
Qed.

Lemma plurality_irv_anonymous_witness :
  plurality [[0; 1; 2]; [1; 0; 2]; [1; 2; 0]]%Z
  = plurality [[1; 2; 0]; [0; 1; 2]; [1; 0; 2]]%Z
  /\ irv [[0; 1; 2]; [1; 0; 2]; [1; 2; 0]]%Z
     = irv [[1; 2; 0]; [0; 1; 2]; [1; 0; 2]]%Z.
Proof.
  apply (plurality_irv_anonymous [[0; 1; 2]; [1; 0; 2]; [1; 2; 0]]%Z
           [[1; 2; 0]; [0; 1; 2]; [1; 0; 2]]%Z).
  apply Permutation_sym.
  apply (Permutation_cons_app [[0; 1; 2]; [1; 0; 2]]%Z [] [1; 2; 0]%Z).
  apply Permutation_refl.
Defined.

(** X10.  [rcv] is not anonymous.  When two voters rank two candidates in
    opposite orders each candidate holds exactly half of the votes, and
    [rcv] returns the first choice of whichever ballot comes first, where
    [irv] returns None for both orders. *)
Theorem rcv_depends_on_ballot_order (a b : candidate) :
  a <> b ->
  rcv [[a; b]; [b; a]] = Ret (Some a)
  /\ rcv [[b; a]; [a; b]] = Ret (Some b)
  /\ irv [[a; b]; [b; a]] = Ret None
  /\ irv [[b; a]; [a; b]] = Ret None.
Proof.
  intros Hab.
  assert (Eab : Z.eqb a b = false) by now apply Z.eqb_neq.
  assert (Eba : Z.eqb b a = false) by (apply Z.eqb_neq; congruence).
  assert (P1 : Permutation (candidates_for_election [[a; b]; [b; a]]) [a; b]).
  { apply NoDup_Permutation; [apply candidates_NoDup | |].
    - constructor; [simpl; intros [H | []]; congruence|].
      constructor; [intros [] | constructor].
    - intros c. rewrite candidates_iff. unfold Spec.is_candidate. simpl. split.
      + intros (v & [<- | [<- | []]] & Hc); simpl in Hc; tauto.
      + intros [<- | [<- | []]]; exists [a; b]; simpl; tauto. }
  assert (P2 : Permutation (candidates_for_election [[b; a]; [a; b]]) [a; b]).
  { transitivity (candidates_for_election [[a; b]; [b; a]]); [|exact P1].
    apply candidates_perm. apply perm_swap. }
  unfold rcv, irv.
  rewrite (Permutation_length P1), (Permutation_length P2).
  rewrite (rcv_from_any_order _ _ _ _ P1), (rcv_from_any_order _ _ _ _ P2).
  rewrite (irv_from_any_order _ _ _ _ P1), (irv_from_any_order _ _ _ _ P2).
  assert (R1 : round_scores [a; b] [[a; b]; [b; a]] = Ret [(a, 1); (b, 1)]).
  { unfold round_scores, top_active, mem, Counter.of_list. cbn -[Z.eqb].
    rewrite !Z.eqb_refl, ?Eba. cbn -[Z.eqb]. now rewrite ?Eba. }
  assert (R2 : round_scores [a; b] [[b; a]; [a; b]] = Ret [(b, 1); (a, 1)]).
  { unfold round_scores, top_active, mem, Counter.of_list. cbn -[Z.eqb].
    rewrite !Z.eqb_refl, ?Eba, ?Eab. cbn -[Z.eqb]. now rewrite ?Eab. }
  assert (S1 : survivors [(a, 1); (b, 1)] [a; b] = Ret []).
  { unfold survivors. cbn -[Z.eqb]. rewrite !Z.eqb_refl, ?Eba. reflexivity. }
  assert (S2 : survivors [(b, 1); (a, 1)] [a; b] = Ret []).
  { unfold survivors. cbn -[Z.eqb]. rewrite !Z.eqb_refl, ?Eab. reflexivity. }
  unfold rcv_from, irv_from. cbv zeta. cbn [length].
  rewrite !rcv_loop_round, !irv_loop_round by (simpl; lia).
  cbn [elems]. rewrite R1, R2. cbn [bind]. rewrite S1, S2.
  repeat split; reflexivity.
Qed.

Lemma rcv_depends_on_ballot_order_witness :
  rcv [[3; 4]; [4; 3]]%Z = Ret (Some 3%Z)
  /\ rcv [[4; 3]; [3; 4]]%Z = Ret (Some 4%Z)
  /\ irv [[3; 4]; [4; 3]]%Z = Ret None
  /\ irv [[4; 3]; [3; 4]]%Z = Ret None.
Proof.
  apply (rcv_depends_on_ballot_order 3%Z 4%Z). discriminate.
Defined.

(** ** More on the pairwise counter *)

Lemma picks_other (e : election) (a b k : candidate) :
  k <> a -> k <> b ->
  Counter.get (Counter.of_list (map (pick a b) e)) k = 0.
Proof.
  intros Na Nb. rewrite get_of_list. apply count_occ_not_In.
  intros I. apply in_map_iff in I. destruct I as (v & Ev & _).
  unfold pick in Ev. destruct (Spec.ranks_first a b v); congruence.
Qed.

(** X11.  Swapping the two queried candidates does not change what the
    pairwise counter reads at any candidate (the two Counters may list
    their entries in different orders). *)
Theorem majority_preferences_swap (e : election) (a b : candidate) :
  a <> b -> Forall (fun v : vote => In a v /\ In b v) e ->
  exists c1 c2,
    majority_preferences e a b = Ret c1
    /\ majority_preferences e b a = Ret c2
    /\ forall k, Counter.get c1 k = Counter.get c2 k.
Proof.
  intros Hab H.
  assert (H' : Forall (fun v : vote => In b v /\ In a v) e).
  { apply Forall_forall. intros v Hv. rewrite Forall_forall in H.
    destruct (H v Hv). tauto. }
  destruct (majority_preferences_reads e a b Hab H) as (E1 & Ga & Gb).
  destruct (majority_preferences_reads e b a (not_eq_sym Hab) H')
    as (E2 & Gb' & Ga').
  exists (Counter.of_list (map (pick a b) e)),
    (Counter.of_list (map (pick b a) e)).
  repeat split; try assumption. intros k.
  destruct (Z.eq_dec k a) as [-> | Na]; [congruence|].
  destruct (Z.eq_dec k b) as [-> | Nb]; [congruence|].
  rewrite !picks_other by assumption. reflexivity.
Qed.

Lemma majority_preferences_swap_witness :
  exists c1 c2,
    majority_preferences [[0; 1; 2]; [2; 1; 0]; [1; 2; 0]]%Z 0%Z 2%Z = Ret c1
    /\ majority_preferences [[0; 1; 2]; [2; 1; 0]; [1; 2; 0]]%Z 2%Z 0%Z = Ret c2
    /\ forall k, Counter.get c1 k = Counter.get c2 k.
Proof.
  apply (majority_preferences_swap [[0; 1; 2]; [2; 1; 0]; [1; 2; 0]]%Z 0%Z 2%Z).
  - discriminate.
  - repeat apply Forall_cons; try apply Forall_nil; split; simpl; auto 10.
Defined.

(** X12.  Queried with the same candidate twice, the pairwise counter
    credits every vote to that candidate: the Counter is empty for the
    election without votes and the single entry [{a: len(election)}]
    otherwise, so that reading it at the two arguments gives twice the
    number of votes. *)
Theorem majority_preferences_same_candidate (e : election) (a : candidate) :
  Forall (fun v : vote => In a v) e ->
  majority_preferences e a a
  = Ret (match e with
         | [] => []
         | _ :: _ => [(a, length e)]
         end).
Proof.
  intros H. unfold majority_preferences.
  rewrite traverse_map with (g := fun _ => a).
  - simpl. f_equal.
    assert (R : map (fun _ : vote => a) e = repeat a (length e)).
    { clear H. induction e as [|v e IH]; simpl; [reflexivity | now rewrite IH]. }
    rewrite R. destruct e as [|v e']; [reflexivity|]. simpl.
    unfold Counter.of_list. simpl. now rewrite of_list_all_same.
  - intros v Hv. rewrite Forall_forall in H.
    destruct (indexOf_present v a (H v Hv)) as (i & ->). simpl.
    now rewrite Nat.ltb_irrefl.
Qed.

Lemma majority_preferences_same_candidate_witness :
  majority_preferences [[0; 1]; [1; 0]; [1; 0]]%Z 1%Z 1%Z
  = Ret [(1%Z, 3)].
Proof.
  apply (majority_preferences_same_candidate [[0; 1]; [1; 0]; [1; 0]]%Z 1%Z).
  repeat apply Forall_cons; try apply Forall_nil; simpl; auto 10.
Defined.

(** ** The set of candidates *)

(** X13.  [candidates_for_election] holds every candidate that appears in
    some vote, once each and nothing else; it is empty exactly when every
    vote is empty, and reordering the ballots only reorders it. *)
Theorem candidates_for_election_spec (e : election) :
  NoDup (candidates_for_election e)
  /\ (forall c, In c (candidates_for_election e)
                <-> exists v, In v e /\ In c v)
  /\ (candidates_for_election e = [] <-> Forall (fun v : vote => v = []) e)
  /\ (forall e', Permutation e e' ->
        Permutation (candidates_for_election e) (candidates_for_election e')).
Proof.
  split; [apply candidates_NoDup|].
  split; [intros c; apply candidates_iff|].
  split; [|intros e'; apply candidates_perm].
  split.
  - intros E. apply Forall_forall. intros v Hv.
    destruct v as [|x r]; [reflexivity|]. exfalso.
    assert (I : In x (candidates_for_election e)).
    { apply candidates_iff. exists (x :: r). split; [assumption | now left]. }
    rewrite E in I. destruct I.
  - intros H.
    destruct (candidates_for_election e) as [|c l] eqn:E; [reflexivity|].
    exfalso. assert (I : In c (candidates_for_election e)).
    { rewrite E. now left. }
    apply candidates_iff in I. destruct I as (v & Hv & Hc).
    rewrite Forall_forall in H. rewrite (H v Hv) in Hc. destruct Hc.
Qed.

(** ** The elections the search draws *)

Lemma range_NoDup (k : nat) : NoDup (range k).
Proof.
  unfold range. apply Injective_map_NoDup; [|apply seq_NoDup].
  intros x y. apply Nat2Z.inj.
Qed.

Lemma range_length (k : nat) : length (range k) = k.
Proof. unfold range. now rewrite length_map, length_seq. Qed.

Lemma drawn_candidates (e : election) (k : nat) :
  e <> [] -> Forall (fun v : vote => Permutation (range k) v) e ->
  Permutation (range k) (candidates_for_election e).
Proof.
  intros Hne H. apply NoDup_Permutation;
    [apply range_NoDup | apply candidates_NoDup |].
  intros c. rewrite candidates_iff. rewrite Forall_forall in H. split.
  - intros Hc. destruct e as [|v e']; [congruence|]. exists v.
    split; [now left|]. apply Permutation_in with (range k); [|assumption].
    apply H. now left.
  - intros (v & Hv & Hc). apply Permutation_in with v; [|assumption].
    symmetry. now apply H.
Qed.

(** A drawn election is valid and ranks between two and ten candidates. *)
Lemma drawn_valid (e : election) :
  drawn e ->
  Spec.valid e /\ 2 <= length (candidates_for_election e) <= 10.
Proof.
  intros (k & Hk & Hne & H).
  pose proof (drawn_candidates e k Hne H) as Pc.
  pose proof (Permutation_length Pc) as El. rewrite range_length in El.
  split; [|lia]. apply complete_valid.
  - split; [assumption|]. apply Forall_forall. intros v Hv.
    rewrite Forall_forall in H. specialize (H v Hv). split.
    + intros ->. apply Permutation_length in H. rewrite range_length in H.
      simpl in H. lia.
    + apply (Permutation_NoDup H). apply range_NoDup.
  - intros v c Hv Hc. rewrite Forall_forall in H.
    apply Permutation_in with (range k); [now apply H|].
    apply Permutation_in with (candidates_for_election e);
      [now symmetry | now apply candidates_iff].
Qed.

(** X14.  On every election the strategy can draw, [plurality], [irv] and
    [rcv] return (None or a candidate of the election) and raise nothing;
    so the function mapped over the drawn elections by [plurality_v_rcv]
    always yields its triple. *)
Theorem drawn_elections_resolve (e : election) :
  drawn e ->
  (plurality e = Ret None
   \/ exists c, plurality e = Ret (Some c) /\ Spec.is_candidate e c)
  /\ (irv e = Ret None
      \/ exists c, irv e = Ret (Some c) /\ Spec.is_candidate e c)
  /\ (rcv e = Ret None
      \/ exists c, rcv e = Ret (Some c) /\ Spec.is_candidate e c)
  /\ exists p r, outcomes e = Ret (e, p, r).
Proof.
  intros D. destruct (drawn_valid e D) as (V & L).
  destruct (winners_are_candidates e V) as (P & IR).
  destruct (IR ltac:(lia)) as (I & R).
  repeat split; try assumption. unfold outcomes.
  destruct P as [-> | (p & -> & _)]; destruct R as [-> | (r & -> & _)];
    simpl; eauto.
Qed.

Lemma drawn_elections_resolve_witness :
  (plurality [[0; 1]; [1; 0]; [1; 0]]%Z = Ret None
   \/ exists c, plurality [[0; 1]; [1; 0]; [1; 0]]%Z = Ret (Some c)
                /\ Spec.is_candidate [[0; 1]; [1; 0]; [1; 0]]%Z c)
  /\ (irv [[0; 1]; [1; 0]; [1; 0]]%Z = Ret None
      \/ exists c, irv [[0; 1]; [1; 0]; [1; 0]]%Z = Ret (Some c)
                   /\ Spec.is_candidate [[0; 1]; [1; 0]; [1; 0]]%Z c)
  /\ (rcv [[0; 1]; [1; 0]; [1; 0]]%Z = Ret None
      \/ exists c, rcv [[0; 1]; [1; 0]; [1; 0]]%Z = Ret (Some c)
                   /\ Spec.is_candidate [[0; 1]; [1; 0]; [1; 0]]%Z c)
  /\ exists p r, outcomes [[0; 1]; [1; 0]; [1; 0]]%Z
                 = Ret ([[0; 1]; [1; 0]; [1; 0]]%Z, p, r).
Proof.
  apply (drawn_elections_resolve [[0; 1]; [1; 0]; [1; 0]]%Z).
  exists 2. split; [split; [apply le_n | repeat constructor]|].
  split; [discriminate|].
  repeat apply Forall_cons; try apply Forall_nil.
  - apply Permutation_refl.
  - apply perm_swap.
  - apply perm_swap.
Defined.

Lemma tally_of_two (e : election) (p q : candidate) :
  p <> q ->
  Forall (fun v : vote => exists x r, v = x :: r /\ (x = p \/ x = q)) e ->
  Spec.first_choice_tally e p + Spec.first_choice_tally e q = length e.
Proof.
  intros Hpq. unfold Spec.first_choice_tally.
  induction 1 as [|v e (x & r & -> & Hx) _ IH]; simpl; [reflexivity|].
  destruct (Z.eqb_spec x p), (Z.eqb_spec x q); simpl; subst;
    try congruence; destruct Hx; try congruence; lia.
Qed.

Lemma drawnb_sound (k : nat) (e : election) : drawnb k e = true -> drawn e.
Proof.
  unfold drawnb. intros H.
  apply andb_true_iff in H. destruct H as (H & Hv).
  apply andb_true_iff in H. destruct H as (H & Hne).
  apply andb_true_iff in H. destruct H as (H2 & H10).
  apply Nat.leb_le in H2, H10. exists k. split; [lia|].
  split; [destruct e; [discriminate | discriminate]|].
  apply Forall_forall. intros v Hin. rewrite forallb_forall in Hv.
  specialize (Hv v Hin).
  apply andb_true_iff in Hv. destruct Hv as (Hv & Hi).
  apply andb_true_iff in Hv. destruct Hv as (Hl & Hn).
  apply Nat.eqb_eq in Hl. symmetry. apply NoDup_Permutation_bis.
  - now apply nodupb_sound.
  - rewrite range_length. lia.
  - intros c Hc. rewrite forallb_forall in Hi. apply mem_In. now apply Hi.
Qed.

(** X15.  What the filter of [plurality_v_rcv] lets through: an election
    with at least three candidates in which no candidate is the first
    choice of more than half of the voters, with two distinct candidates of
    the election as winners, the plurality winner having more first
    choices than the [rcv] winner; and the pairwise count [main] then asks
    for does not raise and splits the votes between the two winners. *)
Theorem search_examples (e : election)
  (res : election * option candidate * option candidate) :
  drawn e -> outcomes e = Ret res -> keep res = true ->
  exists p r,
    res = (e, Some p, Some r)
    /\ p <> r
    /\ Spec.is_candidate e p /\ Spec.is_candidate e r
    /\ Spec.first_choice_tally e r < Spec.first_choice_tally e p
    /\ (forall c, 2 * Spec.first_choice_tally e c <= length e)
    /\ 3 <= length (candidates_for_election e)
    /\ exists cnt, majority_preferences e p r = Ret cnt
                   /\ Counter.get cnt p + Counter.get cnt r = length e.
Proof.
  intros D O K. destruct (drawn_valid e D) as (V & L).
  pose proof V as ((Hne & Hv) & _).
  assert (Hv' : Forall (fun v : vote => v <> []) e).
  { apply Forall_forall. intros v I. rewrite Forall_forall in Hv.
    now destruct (Hv v I). }
  unfold outcomes in O.
  destruct (plurality e) as [op| |] eqn:Ep; simpl in O; try discriminate.
  destruct (rcv e) as [or| |] eqn:Er; simpl in O; try discriminate.
  injection O as <-. simpl in K.
  destruct op as [p|]; [|discriminate]. destruct or as [r|]; [|discriminate].
  apply negb_true_iff, Z.eqb_neq in K.
  exists p, r. split; [reflexivity|]. split; [assumption|].
  destruct (winners_are_candidates e V) as (P & IR).
  destruct (IR ltac:(lia)) as (_ & R).
  assert (Cp : Spec.is_candidate e p).
  { destruct P as [P | (c & P & Hc)]; congruence. }
  assert (Cr : Spec.is_candidate e r).
  { destruct R as [R | (c & R & Hc)]; congruence. }
  assert (Tpr : Spec.first_choice_tally e r < Spec.first_choice_tally e p).
  { destruct (plurality_cases e Hne Hv') as [(E & _) | (w & E & _ & Strict)];
      [congruence|].
    rewrite E in Ep. injection Ep as ->. apply Strict. congruence. }
  assert (NoMaj : forall c, 2 * Spec.first_choice_tally e c <= length e).
  { intros c.
    destruct (Nat.le_gt_cases (2 * Spec.first_choice_tally e c) (length e))
      as [Le | Gt]; [exact Le|]. exfalso.
    destruct (majority_first_choice_wins e c V ltac:(lia) Gt) as (E1 & _ & E2).
    congruence. }
  repeat split; try assumption.
  - destruct (Nat.le_gt_cases 3 (length (candidates_for_election e)))
      as [Ge | Lt]; [exact Ge|]. exfalso.
    assert (Two : Forall (fun v : vote =>
                            exists x t, v = x :: t /\ (x = p \/ x = r)) e).
    { apply Forall_forall. intros v Hv0. rewrite Forall_forall in Hv'.
      specialize (Hv' v Hv0). destruct v as [|x t]; [congruence|].
      exists x, t. split; [reflexivity|].
      assert (Ix : In x (candidates_for_election e)).
      { apply candidates_iff. exists (x :: t). split; [assumption|now left]. }
      apply candidates_iff in Cp, Cr.
      destruct (candidates_for_election e) as [|y [|z [|u l]]];
        simpl in *; lia. }
    pose proof (tally_of_two e p r K Two). specialize (NoMaj p). lia.
  - assert (Both : Forall (fun v : vote => In p v /\ In r v) e).
    { apply Forall_forall. intros v Hv0.
      destruct D as (k & _ & _ & H). rewrite Forall_forall in H.
      split.
      - destruct Cp as (v1 & Hv1 & Hp).
        apply Permutation_in with (range k); [now apply H|].
        apply Permutation_in with v1; [symmetry; now apply H | assumption].
      - destruct Cr as (v1 & Hv1 & Hr).
        apply Permutation_in with (range k); [now apply H|].
        apply Permutation_in with v1; [symmetry; now apply H | assumption]. }
    destruct (majority_preferences_reads e p r K Both) as (E & Gp & Gr).
    exists (Counter.of_list (map (pick p r) e)). split; [exact E|].
    rewrite Gp, Gr. now apply prefer_swap.
Qed.

Lemma search_examples_witness :
  exists p r,
    (diverging_election, Some 0%Z, Some 1%Z)
    = (diverging_election, Some p, Some r)
    /\ p <> r
    /\ Spec.is_candidate diverging_election p
    /\ Spec.is_candidate diverging_election r
    /\ Spec.first_choice_tally diverging_election r
       < Spec.first_choice_tally diverging_election p
    /\ (forall c, 2 * Spec.first_choice_tally diverging_election c
                  <= length diverging_election)
    /\ 3 <= length (candidates_for_election diverging_election)
    /\ exists cnt, majority_preferences diverging_election p r = Ret cnt
                   /\ Counter.get cnt p + Counter.get cnt r
                      = length diverging_election.
Proof.
  apply (search_examples diverging_election
           (diverging_election, Some 0%Z, Some 1%Z)).
  - apply drawnb_sound with 3. vm_compute. reflexivity.
  - vm_compute. reflexivity.
  - vm_compute. reflexivity.
Defined.

(** ** Complete ballots and two-candidate elections *)

(** X16.  Complete ballots are enough for [irv] and [rcv] to return: on a
    well-formed election with two or more candidates in which every vote
    ranks every candidate, both return None or a candidate of the election
    and raise nothing. *)
Theorem complete_ballots_resolve (e : election) :
  Spec.well_formed e -> Spec.complete e ->
  1 < length (candidates_for_election e) ->
  (irv e = Ret None
   \/ exists c, irv e = Ret (Some c) /\ Spec.is_candidate e c)
  /\ (rcv e = Ret None
      \/ exists c, rcv e = Ret (Some c) /\ Spec.is_candidate e c).
Proof.
  intros W C L.
  destruct (winners_are_candidates e (complete_valid e W C)) as (_ & H).
  exact (H L).
Qed.

Lemma complete_ballots_resolve_witness :
  (irv [[0; 1; 2]; [2; 0; 1]; [1; 0; 2]; [0; 2; 1]]%Z = Ret None
   \/ exists c, irv [[0; 1; 2]; [2; 0; 1]; [1; 0; 2]; [0; 2; 1]]%Z
                = Ret (Some c)
                /\ Spec.is_candidate
                     [[0; 1; 2]; [2; 0; 1]; [1; 0; 2]; [0; 2; 1]]%Z c)
  /\ (rcv [[0; 1; 2]; [2; 0; 1]; [1; 0; 2]; [0; 2; 1]]%Z = Ret None
      \/ exists c, rcv [[0; 1; 2]; [2; 0; 1]; [1; 0; 2]; [0; 2; 1]]%Z
                   = Ret (Some c)
                   /\ Spec.is_candidate
                        [[0; 1; 2]; [2; 0; 1]; [1; 0; 2]; [0; 2; 1]]%Z c).
Proof.
  apply (complete_ballots_resolve
           [[0; 1; 2]; [2; 0; 1]; [1; 0; 2]; [0; 2; 1]]%Z).
  - apply well_formedb_sound. vm_compute. reflexivity.
  - apply completeb_sound. vm_compute. reflexivity.
  - vm_compute. apply le_S, le_n.
Defined.

Lemma eliminate_all_tied (e : election) (A : list candidate) :
  (forall c d, In c A -> In d A -> Spec.score A e c = Spec.score A e d) ->
  Spec.eliminate e A = [].
Proof.
  intros T. destruct A as [|a r] eqn:EA; [reflexivity|]. rewrite <- EA in *.
  assert (HA : A <> []) by (rewrite EA; discriminate).
  destruct (min_score_spec A e HA) as ((c0 & Hc0 & E0) & _).
  unfold Spec.eliminate.
  destruct (filter (fun c => negb (Spec.score A e c =? Spec.min_score A e)) A)
    as [|c l] eqn:F; [reflexivity|]. exfalso.
  assert (I : In c (c :: l)) by now left. rewrite <- F in I.
  apply filter_In in I. destruct I as (Hc & Ne).
  apply negb_true_iff, Nat.eqb_neq in Ne. apply Ne.
  rewrite <- E0. now apply T.
Qed.

(** X17.  With exactly two candidates the elimination rule adds nothing:
    on a valid election [irv] returns what [plurality] returns, the
    candidate with more first choices or None when the two are level. *)
Theorem two_candidates_irv_is_plurality (e : election) :
  Spec.valid e -> length (candidates_for_election e) = 2 ->
  irv e = plurality e.
Proof.
  intros V L. pose proof V as ((Hne & Hv) & _).
  assert (Hv' : Forall (fun v : vote => v <> []) e).
  { apply Forall_forall. intros v I. rewrite Forall_forall in Hv.
    now destruct (Hv v I). }
  destruct (candidates_for_election e) as [|a [|b [|c l]]] eqn:Ec;
    try discriminate.
  assert (Hab : a <> b).
  { pose proof (candidates_NoDup e) as ND. rewrite Ec in ND.
    inversion ND as [|? ? Hn _]. intros ->. apply Hn. now left. }
  assert (Two : Forall (fun v : vote =>
                          exists x t, v = x :: t /\ (x = a \/ x = b)) e).
  { apply Forall_forall. intros v Hv0. rewrite Forall_forall in Hv'.
    specialize (Hv' v Hv0). destruct v as [|x t]; [congruence|].
    exists x, t. split; [reflexivity|].
    assert (Ix : In x (candidates_for_election e)).
    { apply candidates_iff. exists (x :: t). split; [assumption|now left]. }
    rewrite Ec in Ix. simpl in Ix. intuition congruence. }
  pose proof (tally_of_two e a b Hab Two) as Sum.
  assert (L2 : 1 < length (candidates_for_election e))
    by (rewrite Ec; simpl; lia).
  destruct (plurality_cases e Hne Hv')
    as [(-> & x & y & Hxy & Exy & Max) | (w & -> & Pw & Strict)].
  - destruct (irv_follows_engine e V L2) as (final & En & ->).
    assert (Tie : Spec.first_choice_tally e a = Spec.first_choice_tally e b).
    { pose proof (Max a) as Ma. pose proof (Max b) as Mb.
      pose proof (first_choice_disjoint e x y Hxy).
      destruct (Z.eq_dec x a) as [-> | Nxa].
      - destruct (Z.eq_dec y b) as [-> | Nyb]; [lia|].
        pose proof (first_choice_disjoint e y b Nyb). lia.
      - destruct (Z.eq_dec x b) as [-> | Nxb].
        + destruct (Z.eq_dec y a) as [-> | Nya]; [lia|].
          pose proof (first_choice_disjoint e y a Nya). lia.
        + pose proof (first_choice_disjoint e x a Nxa).
          pose proof (first_choice_disjoint e x b Nxb). lia. }
    inversion En as [A Ls | A f Ls Hn Hrest]; subst; [lia|].
    rewrite eliminate_all_tied in Hrest.
    + inversion Hrest; subst; [reflexivity | simpl in *; lia].
    + intros c d Hc Hd. rewrite !score_first_round. rewrite Ec in Hc, Hd.
      simpl in Hc, Hd. destruct Hc as [<- | [<- | []]],
          Hd as [<- | [<- | []]]; congruence.
  - assert (Maj : length e < 2 * Spec.first_choice_tally e w).
    { assert (Iw : In w (candidates_for_election e)).
      { apply candidates_iff. now apply first_choice_is_candidate. }
      rewrite Ec in Iw. simpl in Iw. destruct Iw as [<- | [<- | []]].
      - specialize (Strict b (not_eq_sym Hab)). lia.
      - specialize (Strict a Hab). lia. }
    now destruct (majority_first_choice_wins e w V L2 Maj) as (_ & -> & _).
Qed.

Lemma two_candidates_irv_is_plurality_witness :
  irv [[0; 1]; [1; 0]; [1; 0]; [0; 1]]%Z
  = plurality [[0; 1]; [1; 0]; [1; 0]; [0; 1]]%Z.
Proof.
  apply (two_candidates_irv_is_plurality [[0; 1]; [1; 0]; [1; 0]; [0; 1]]%Z).
  - apply checked_valid. vm_compute. reflexivity.
  - vm_compute. reflexivity.
Defined.
